(** * Integer partitions and relation matrices

    A shallow embedding of the two discrete-mathematics labs of the
    repository:

    - [lpnudiscrete/2ndlab.py]: the generator [partitions] enumerating the
      partitions of [n] into non-increasing natural addends, and the
      exactly-three-addends filter of [print_partitions];
    - [lpnudiscrete/1stlab.py]: [build_matrix] and [transpose], the
      adjacency matrix of a relation and of its inverse.

    Python integers are unbounded, hence [Z]; tuples of integers are
    [list Z]; the [dict] of [build_matrix] is a [gmap]; Python lists
    indexed in place are stdpp lists with explicit bounds checks. *)

From Stdlib Require Import Ascii.
From stdpp Require Import gmap strings list fin_maps sorting pretty.

Open Scope Z_scope.

(** ** 2ndlab.py: the enumerator *)

Module Partitions.

(** [range(start, 0, -1)]: the integers [start, start-1, ..., 1]; empty
    when [start <= 0]. *)
Fixpoint range_desc (k : nat) : list Z :=
  match k with
  | O => []
  | S k' => Z.of_nat k :: range_desc k'
  end.

Definition py_range_down (start : Z) : list Z := range_desc (Z.to_nat start).

(** [for x in xs: yield from body(x)]: the items of the sub-generators in
    the order of the loop; a sub-generator that does not finish makes the
    loop not finish. *)
Section yield_from.
Context {A B : Type} (body : A → option (list B)).

Fixpoint for_yield_from (xs : list A) : option (list B) :=
  match xs with
  | [] => Some []
  | x :: xs' =>
      ys ← body x;
      zs ← for_yield_from xs';
      Some (ys ++ zs)
  end.
End yield_from.

(** The generator, materialised as the list of the tuples it yields.
    [fuel] bounds the depth of nested generator frames; [None] means the
    bound was hit.

<<
    def partitions(n, max_part=None, prefix=()):
        if n == 0:
            yield prefix
            return
        if max_part is None:
            max_part = n
        for x in range(min(max_part, n), 0, -1):
            yield from partitions(n - x, x, prefix + (x,))
>> *)
Fixpoint partitions_fuel (fuel : nat) (n : Z) (max_part : option Z)
    (prefix : list Z) : option (list (list Z)) :=
  match fuel with
  | O => None
  | S fuel' =>
      if decide (n = 0) then Some [prefix]
      else
        let max_part := default n max_part in
        for_yield_from
          (λ x, partitions_fuel fuel' (n - x) (Some x) (prefix ++ [x]))
          (py_range_down (Z.min max_part n))
  end.

(** [list(partitions(n))]: one frame per unit of the remaining target
    plus the frame of the base case is always enough (lemma
    [partitions_fuel_enough] below), so the default is never taken. *)
Definition partitions (n : Z) : list (list Z) :=
  default [] (partitions_fuel (S (Z.to_nat n)) n None []).

(** The inner calls of the recursion, with a ceiling [c] on the next
    addend and the empty prefix; [partitions n] is [parts n n] (lemma
    [partitions_parts]). *)
Definition parts (n c : Z) : list (list Z) :=
  default [] (partitions_fuel (S (Z.to_nat n)) n (Some c) []).

(** [sum(P)] *)
Definition sum (P : list Z) : Z := foldr Z.add 0 P.

(** [parts_k3 = [p for p in all_parts if len(p) == 3]] of
    [print_partitions]. *)
Definition parts_k3 (n : Z) : list (list Z) :=
  filter (λ p, length p = 3%nat) (partitions n).

(** *** Arguments of any type

    [partitions] is not annotated and checks nothing about [n]: what
    happens to an argument is decided by the operations that the body
    applies to it.  The body is modelled once more below, statement by
    statement, on the values [int], [str] and [None]; [float] and the
    other types are outside this model. *)
Inductive pyobj :=
  | PyInt (z : Z)
  | PyStr (s : string)
  | PyNone.

Inductive pyexn := TypeError.

(** Iterating a generator to its end: the tuples it yielded, and the
    exception that stopped it, if one did. *)
Inductive outcome :=
  | Finished (ps : list (list Z))
  | Raised (ps : list (list Z)) (e : pyexn).

(** [v == 0]: never raises; a [str] and [None] are not equal to 0. *)
Definition py_eq_zero (v : pyobj) : bool :=
  match v with
  | PyInt z => bool_decide (z = 0)
  | PyStr _ | PyNone => false
  end.

(** [min(a, b)]: [b] when [b < a], otherwise [a].  [<] is defined
    between two [int]s and between two [str]s (the order of the
    characters, a proper prefix first); between any other two of these
    values it raises [TypeError]. *)
Definition py_min (a b : pyobj) : pyexn + pyobj :=
  match a, b with
  | PyInt x, PyInt y => inr (if decide (y < x) then b else a)
  | PyStr s, PyStr t => inr (if String.ltb t s then b else a)
  | _, _ => inl TypeError
  end.

(** [range(start, 0, -1)]: [TypeError] unless [start] is an [int]. *)
Definition py_range (start : pyobj) : pyexn + list Z :=
  match start with
  | PyInt z => inr (py_range_down z)
  | PyStr _ | PyNone => inl TypeError
  end.

(** [n - x] for an [int] [x]: [TypeError] unless [n] is an [int]. *)
Definition py_sub (n : pyobj) (x : Z) : pyexn + pyobj :=
  match n with
  | PyInt z => inr (PyInt (z - x))
  | PyStr _ | PyNone => inl TypeError
  end.

(** [for x in xs: yield from body(x)] when [body(x)] may raise: the loop
    stops at the first exception, after the tuples yielded so far. *)
Section yield_from_dyn.
Context {A : Type} (body : A → option outcome).

Fixpoint for_yield_from_dyn (xs : list A) : option outcome :=
  match xs with
  | [] => Some (Finished [])
  | x :: xs' =>
      match body x with
      | None => None
      | Some (Raised ys e) => Some (Raised ys e)
      | Some (Finished ys) =>
          match for_yield_from_dyn xs' with
          | None => None
          | Some (Finished zs) => Some (Finished (ys ++ zs))
          | Some (Raised zs e) => Some (Raised (ys ++ zs) e)
          end
      end
  end.
End yield_from_dyn.

(** The body of [partitions] on these values; [max_part] is [PyNone]
    when the argument is left out.  [fuel] bounds the depth of nested
    frames as in [partitions_fuel].
<<
    if n == 0:
        yield prefix
        return
    if max_part is None:
        max_part = n
    for x in range(min(max_part, n), 0, -1):
        yield from partitions(n - x, x, prefix + (x,))
>> *)
Fixpoint partitions_dyn_fuel (fuel : nat) (n max_part : pyobj)
    (prefix : list Z) : option outcome :=
  match fuel with
  | O => None
  | S fuel' =>
      if py_eq_zero n then Some (Finished [prefix])
      else
        let max_part := match max_part with PyNone => n | _ => max_part end in
        match py_min max_part n with
        | inl e => Some (Raised [] e)
        | inr m =>
            match py_range m with
            | inl e => Some (Raised [] e)
            | inr xs =>
                for_yield_from_dyn
                  (λ x, match py_sub n x with
                        | inl e => Some (Raised [] e)
                        | inr r =>
                            partitions_dyn_fuel fuel' r (PyInt x) (prefix ++ [x])
                        end)
                  xs
            end
        end
  end.

(** [list(partitions(n))] for an argument of any of these types.  The
    frames allowed are always enough (lemma [partitions_dyn_fuel_enough]
    below), so the default is never taken. *)
Definition dyn_frames (n : pyobj) : nat :=
  match n with
  | PyInt z => S (Z.to_nat z)
  | PyStr _ | PyNone => 1
  end.

Definition partitions_dyn (n : pyobj) : outcome :=
  default (Finished []) (partitions_dyn_fuel (dyn_frames n) n PyNone []).

(** The arguments the enumerator is specified for: integers [n >= 0]. *)
Definition valid_input (n : pyobj) : Prop := ∃ z, n = PyInt z ∧ 0 ≤ z.

(** The argument is rejected: the iteration fails, having yielded
    nothing. *)
Definition rejected (n : pyobj) : Prop := ∃ e, partitions_dyn n = Raised [] e.

(** *** Vocabulary of the properties *)

(** [bounded_desc b s]: the addends of [s] are non-increasing, each at
    least 1, and the first one is at most [b]. *)
Fixpoint bounded_desc (b : Z) (s : list Z) : Prop :=
  match s with
  | [] => True
  | a :: s' => 1 ≤ a ≤ b ∧ bounded_desc a s'
  end.

(** Each addend is at least the following one. *)
Fixpoint non_increasing (s : list Z) : Prop :=
  match s with
  | [] => True
  | a :: s' => match s' with [] => True | b :: _ => b ≤ a end ∧ non_increasing s'
  end.

(** A partition of [n]: non-increasing positive addends of sum [n]. *)
Definition is_partition (n : Z) (s : list Z) : Prop :=
  sum s = n ∧ non_increasing s ∧ Forall (λ a, 1 ≤ a) s.

(** [lex_gt s t]: at the first position where [s] and [t] differ, [s]
    has the larger addend (a proper extension counts as larger). *)
Fixpoint lex_gt (s t : list Z) : Prop :=
  match s, t with
  | [], _ => False
  | _ :: _, [] => True
  | a :: s', b :: t' => b < a ∨ (a = b ∧ lex_gt s' t')
  end.

(** The output of one loop: for each tried addend [x], in order, the
    tuples of the sub-enumeration [g x] with [x] put in front. *)
Definition blocks (g : Z → list (list Z)) (xs : list Z) : list (list Z) :=
  concat (map (λ x, cons x <$> g x) xs).

(** The partition-counting function: [pcount k n] is the number of ways
    to write [n] with addends of size at most [k], counted by the
    multiplicity [j] of the addend [k]; [p n = pcount n n]. *)
Fixpoint pcount (k n : nat) : nat :=
  match k with
  | O => match n with O => 1%nat | S _ => 0%nat end
  | S k' => sum_list ((λ j, pcount k' (n - j * k)%nat) <$> seq 0 (S (n / k)))
  end.

Definition p (n : nat) : nat := pcount n n.

End Partitions.

(** ** 2ndlab.py: the report *)

Module Report.

Import Partitions.

(** The end-of-line character. *)
Definition newline : string := String "010"%char "".

(** [" + ".join(map(str, p))] *)
Definition join_plus (p : list Z) : string := String.concat " + " (pretty <$> p).

(** [print_partitions(n)]: the arguments of the calls of [print], in
    order.
<<
    all_parts = list(partitions(n))
    print(f"All partitions of {n} into natural addends (order ignored):")
    for p in all_parts:
        print(" + ".join(map(str, p)))
    print(f"Total: {len(all_parts)}\n")
    parts_k3 = [p for p in all_parts if len(p) == 3]
    print(f"Partitions of {n} into EXACTLY 3 natural addends:")
    if parts_k3:
        for p in parts_k3:
            print(" + ".join(map(str, p)))
    else:
        print("None.")
    print(f"Total (k=3): {len(parts_k3)}")
>> *)
Definition print_partitions (n : Z) : list string :=
  let all_parts := partitions n in
  let parts_k3 := filter (λ p, length p = 3%nat) all_parts in
  ["All partitions of " +:+ pretty n +:+ " into natural addends (order ignored):"]
  ++ (join_plus <$> all_parts)
  ++ ["Total: " +:+ pretty (length all_parts) +:+ newline]
  ++ ["Partitions of " +:+ pretty n +:+ " into EXACTLY 3 natural addends:"]
  ++ match parts_k3 with
     | _ :: _ => join_plus <$> parts_k3
     | [] => ["None."]
     end
  ++ ["Total (k=3): " +:+ pretty (length parts_k3)].

(** [main()], from the result of [int(input(...).strip())] on: [None]
    stands for the [ValueError] of [int].
<<
    if not (3 <= n <= 7):
        print("Error: n must be in the range 3..7.")
        return
    print_partitions(n)
>> *)
Definition main (parsed : option Z) : list string :=
  match parsed with
  | None => ["Error: please enter an integer."]
  | Some n =>
      if decide (3 ≤ n ≤ 7) then print_partitions n
      else ["Error: n must be in the range 3..7."]
  end.

(** The first character of a string is [N]. *)
Definition starts_N (s : string) : Prop :=
  match s with
  | String c _ => c = "N"%char
  | EmptyString => False
  end.

End Report.

(** ** 1stlab.py: the matrix of a relation and of its inverse *)

Module Relation.

Local Open Scope nat_scope.

(** [idx = {a: i for i, a in enumerate(A)}]: a label that occurs twice
    keeps its last position. *)
Definition index_of (A : list string) : gmap string nat :=
  foldl (λ idx '(i, a), <[a := i]> idx) ∅ (imap pair A).

(** [[[0] * n for _ in range(n)]]: [n] fresh rows of [n] zeros. *)
Definition zeros (n : nat) : list (list Z) := replicate n (replicate n 0%Z).

(** [l[i] = v] for an index [i >= 0]; [None] is Python's [IndexError]. *)
Definition set_item {T} (l : list T) (i : nat) (v : T) : option (list T) :=
  if decide (i < length l) then Some (<[i := v]> l) else None.

(** [M[i][j] = v]: the row [M[i]] is fetched and updated in place; the
    rows are distinct objects, so only row [i] changes. *)
Definition set_entry (M : list (list Z)) (i j : nat) (v : Z)
    : option (list (list Z)) :=
  row ← M !! i;
  row' ← set_item row j v;
  Some (<[i := row']> M).

(** One turn of the loop over [pairs]:
<<
        if x in idx and y in idx:
            M[idx[x]][idx[y]] = 1
>> *)
Definition mark (idx : gmap string nat) (M : list (list Z))
    (xy : string * string) : option (list (list Z)) :=
  match idx !! xy.1, idx !! xy.2 with
  | Some i, Some j => set_entry M i j 1%Z
  | _, _ => Some M
  end.

(** [for x, y in pairs: ...] *)
Fixpoint mark_all (idx : gmap string nat) (M : list (list Z))
    (pairs : list (string * string)) : option (list (list Z)) :=
  match pairs with
  | [] => Some M
  | xy :: rest => M' ← mark idx M xy; mark_all idx M' rest
  end.

(** [build_matrix(A, pairs)]; [None] would be an [IndexError]. *)
Definition build_matrix (A : list string) (pairs : list (string * string))
    : option (list (list Z)) :=
  let n := length A in
  let idx := index_of A in
  let M := zeros n in
  mark_all idx M pairs.

(** [zip( *M)] for a non-empty [M]: the tuples of the [k]-th items of the
    rows, as many as the shortest row has items. *)
Fixpoint zip_star (M : list (list Z)) : list (list Z) :=
  match M with
  | [] => []
  | row :: rest =>
      match rest with
      | [] => (λ v, [v]) <$> row
      | _ :: _ => zip_with cons row (zip_star rest)
      end
  end.

(** [[list(row) for row in zip( *M)] if M else []] *)
Definition transpose (M : list (list Z)) : list (list Z) :=
  match M with
  | [] => []
  | _ :: _ => zip_star M
  end.

(** The inverse relation: every pair [(x, y)] replaced by [(y, x)]. *)
Definition swapped (pairs : list (string * string)) : list (string * string) :=
  prod_swap <$> pairs.

(** [M[i][j]], when both indices are in range. *)
Definition entry (M : list (list Z)) (i j : nat) : option Z :=
  row ← M !! i; row !! j.

(** [n] rows of [n] items. *)
Definition square (n : nat) (M : list (list Z)) : Prop :=
  length M = n ∧ Forall (λ row, length row = n) M.

(** The invariant of the loop of [build_matrix]: [M] is an [n] by [n]
    matrix of zeros and ones that records exactly the pairs of [seen]
    whose two labels are indexed. *)
Definition represents (idx : gmap string nat) (n : nat) (M : list (list Z))
    (seen : list (string * string)) : Prop :=
  square n M ∧
  ∀ i j, i < n → j < n →
    (entry M i j = Some 1%Z ∨ entry M i j = Some 0%Z)
    ∧ (entry M i j = Some 1%Z ↔
       ∃ x y, (x, y) ∈ seen ∧ idx !! x = Some i ∧ idx !! y = Some j).

End Relation.

(** ** 1stlab.py: reading the input *)

Module Input.

Import Relation.

Local Open Scope nat_scope.

(** [dedup_preserve_order(seq)]: the loop with its set [seen] and its
    list [out].
<<
    for x in seq:
        if x not in seen:
            seen.add(x)
            out.append(x)
    return out
>> *)
Fixpoint dedup_loop (seen : gset string) (out : list string)
    (seq : list string) : list string :=
  match seq with
  | [] => out
  | x :: rest =>
      if decide (x ∉ seen) then dedup_loop ({[x]} ∪ seen) (out ++ [x]) rest
      else dedup_loop seen out rest
  end.

Definition dedup_preserve_order (seq : list string) : list string :=
  dedup_loop ∅ [] seq.

(** *** Strings

    A Python [str] is modelled by a [string] with one [ascii] for each
    character, which covers the strings whose code points are below 256.
    On these, [str.isspace] holds of the code points 9 to 13, 28 to 32,
    133 and 160. *)
Definition is_space (c : ascii) : bool :=
  let k := nat_of_ascii c in
  ((9 <=? k) && (k <=? 13)) || ((28 <=? k) && (k <=? 32))
  || (k =? 133) || (k =? 160).

(** [s.lstrip()], [s.rstrip()] and [s.strip()] *)
Fixpoint lstrip (s : string) : string :=
  match s with
  | EmptyString => EmptyString
  | String c s' => if is_space c then lstrip s' else s
  end.

Fixpoint rstrip (s : string) : string :=
  match s with
  | EmptyString => EmptyString
  | String c s' =>
      match rstrip s' with
      | EmptyString => if is_space c then EmptyString else String c EmptyString
      | r => String c r
      end
  end.

Definition strip (s : string) : string := rstrip (lstrip s).

(** [s.replace(old, new)] for one-character [old] and [new] *)
Fixpoint replace_char (old new : ascii) (s : string) : string :=
  match s with
  | EmptyString => EmptyString
  | String c s' =>
      String (if decide (c = old) then new else c) (replace_char old new s')
  end.

(** Splitting at the characters that satisfy [P]: the maximal runs of
    the other characters.  A run ends before [s] when [s] is empty or
    starts with a character that satisfies [P]. *)
Definition word_ends (P : ascii → bool) (s : string) : bool :=
  match s with
  | EmptyString => true
  | String c _ => P c
  end.

Fixpoint split_on (P : ascii → bool) (s : string) : list string :=
  match s with
  | EmptyString => []
  | String c s' =>
      if P c then split_on P s'
      else if word_ends P s' then String c EmptyString :: split_on P s'
      else match split_on P s' with
           | w :: ws => String c w :: ws
           | [] => [String c EmptyString]
           end
  end.

(** [s.split()]: the maximal runs of characters that are not white
    space. *)
Definition py_split (s : string) : list string := split_on is_space s.

(** [parse_pair(line)]; [None] is the [ValueError] raised for fewer than
    two tokens.
<<
    normalized = (line.strip().replace("(", " ").replace(")", " ")
                  .replace("[", " ").replace("]", " ").replace(",", " "))
    tokens = [t for t in normalized.split() if t]
    if len(tokens) < 2:
        raise ValueError(...)
    return tokens[0], tokens[1]
>> *)
Definition normalize (line : string) : string :=
  replace_char "," " " (replace_char "]" " " (replace_char "[" " "
    (replace_char ")" " " (replace_char "(" " " (strip line))))).

Definition parse_pair (line : string) : option (string * string) :=
  let normalized := normalize line in
  let tokens := filter (λ t, t ≠ EmptyString) (py_split normalized) in
  match tokens with
  | t0 :: t1 :: _ => Some (t0, t1)
  | _ => None
  end.

(** The characters that separate tokens in a pair. *)
Definition is_sep (c : ascii) : bool :=
  is_space c || bool_decide (c ∈ ["("; ")"; "["; "]"; ","]%char).

(** All characters of [s] satisfy [P]. *)
Fixpoint all_chars (P : ascii → bool) (s : string) : bool :=
  match s with
  | EmptyString => true
  | String c s' => P c && all_chars P s'
  end.

(** A token: not empty, and free of separators. *)
Definition is_token (t : string) : bool :=
  negb (bool_decide (t = EmptyString)) && all_chars (λ c, negb (is_sep c)) t.

(** A separator follows, or nothing does. *)
Definition sep_next (s : string) : bool := word_ends is_sep s.

(** *** [App.parse_inputs] and [App.on_compute]

    The two widgets are read once: [entry_A] is [self.entry_A.get()] and
    [raw_pairs] the lines [self.text_pairs.get(...).strip().splitlines()].
    The message boxes are not modelled; the list of errors that
    [parse_inputs] shows as a warning is returned. *)

(** One turn of the loop over the numbered lines; the state is [pairs],
    [elems_seen] and [errors] (an error keeps the number and the text of
    its line).
<<
    if not line.strip():
        continue
    try:
        x, y = parse_pair(line)
        pairs.append((x, y))
        elems_seen.extend([x, y])
    except ValueError as e:
        errors.append(f"Line {ln}: {e}")
>> *)
Definition read_line
    (st : list (string * string) * list string * list (nat * string))
    (item : nat * string)
    : list (string * string) * list string * list (nat * string) :=
  let '(pairs, elems_seen, errors) := st in
  if decide (strip item.2 = EmptyString) then st
  else match parse_pair item.2 with
       | Some (x, y) => (pairs ++ [(x, y)], elems_seen ++ [x; y], errors)
       | None => (pairs, elems_seen, errors ++ [item])
       end.

(** [for ln, line in enumerate(raw_pairs, start=1): ...] *)
Definition read_lines (raw_pairs : list string)
    : list (string * string) * list string * list (nat * string) :=
  foldl read_line ([], [], []) (imap (λ i line, (S i, line)) raw_pairs).

(** [parse_inputs]: the errors, and [(A, pairs)] unless [ValueError] is
    raised because no line gave a pair.
<<
    raw_A = self.entry_A.get().strip()
    A = []
    if raw_A:
        tokens = [t for t in raw_A.replace(",", " ").split() if t]
        A = dedup_preserve_order(tokens)
    ...
    if not pairs:
        raise ValueError("No valid pairs were provided.")
    if not A:
        A = dedup_preserve_order(elems_seen)
    return A, pairs
>> *)
Definition entry_labels (entry_A : string) : list string :=
  let raw_A := strip entry_A in
  if decide (raw_A = EmptyString) then []
  else dedup_preserve_order
         (filter (λ t, t ≠ EmptyString)
                 (py_split (replace_char "," " " raw_A))).

Definition parse_inputs (entry_A : string) (raw_pairs : list string)
    : list (nat * string) * option (list string * list (string * string)) :=
  let A := entry_labels entry_A in
  let '(pairs, elems_seen, errors) := read_lines raw_pairs in
  (errors,
   if decide (pairs = []) then None
   else Some (if decide (A = []) then dedup_preserve_order elems_seen else A,
              pairs)).

(** The two labels of every pair, in order. *)
Definition labels_of (pairs : list (string * string)) : list string :=
  flat_map (λ xy, [xy.1; xy.2]) pairs.

(** The lines reported as errors: not blank, and not a pair. *)
Definition bad_line (item : nat * string) : Prop :=
  strip item.2 ≠ EmptyString ∧ parse_pair item.2 = None.

(** [sum(sum(r) for r in M)] *)
Definition total (M : list (list Z)) : Z :=
  foldr Z.add 0%Z (foldr Z.add 0%Z <$> M).

(** What [on_compute] displays: the labels, the pairs reported as
    outside of [A], the two matrices and the figure [Pairs used]. *)
Record display := Display {
  labels : list string;
  outside : list (string * string);
  M_p : list (list Z);
  M_p_inv : list (list Z);
  pairs_used : Z;
}.

(** [on_compute]; [None] when it returns early on the [ValueError] of
    [parse_inputs] (or if [build_matrix] raised).
<<
    raw_A = self.entry_A.get().strip()
    if raw_A:
        outside = [(x, y) for (x, y) in pairs if x not in A or y not in A]
        ...
        pairs = [(x, y) for (x, y) in pairs if x in A and y in A]
    M_p = build_matrix(A, pairs)
    M_p_inv = transpose(M_p)
>> *)
Definition on_compute (entry_A : string) (raw_pairs : list string)
    : option display :=
  '(A, pairs) ← (parse_inputs entry_A raw_pairs).2;
  let raw_A := strip entry_A in
  let outside :=
    if decide (raw_A = EmptyString) then []
    else filter (λ xy, xy.1 ∉ A ∨ xy.2 ∉ A) pairs in
  let pairs :=
    if decide (raw_A = EmptyString) then pairs
    else filter (λ xy, xy.1 ∈ A ∧ xy.2 ∈ A) pairs in
  M ← build_matrix A pairs;
  Some (Display A outside M (transpose M) (total M)).

End Input.

Import Partitions.

(** * Properties of the enumerator *)

Section yield_from_facts.
Context {A B : Type}.
Implicit Types (body : A → option (list B)) (xs : list A).

Lemma for_yield_from_total body xs (g : A → list B) :
  Forall (λ x, body x = Some (g x)) xs →
  for_yield_from body xs = Some (concat (map g xs)).
Proof.
  induction 1 as [|x xs Hx _ IH]; simpl; [done|].
  by rewrite Hx, IH.
Qed.

Lemma for_yield_from_ext body body' xs :
  Forall (λ x, body x = body' x) xs →
  for_yield_from body xs = for_yield_from body' xs.
Proof.
  induction 1 as [|x xs Hx _ IH]; simpl; [done|].
  by rewrite Hx, IH.
Qed.

Lemma for_yield_from_mono body body' xs zs :
  (∀ x ys, x ∈ xs → body x = Some ys → body' x = Some ys) →
  for_yield_from body xs = Some zs →
  for_yield_from body' xs = Some zs.
Proof.
  revert zs. induction xs as [|x xs IH]; simpl; intros zs Hb; [done|].
  destruct (body x) as [ys|] eqn:Hx; simpl; [|done].
  destruct (for_yield_from body xs) as [zs'|] eqn:Hxs; simpl; [|done].
  intros [= <-].
  rewrite (Hb x ys) by (done || left).
  rewrite (IH zs') by (done || intros; apply Hb; (done || by right)).
  done.
Qed.
End yield_from_facts.

Lemma for_yield_from_fmap {A B C} (h : B → C) (body : A → option (list B)) xs :
  for_yield_from (λ x, fmap (M:=list) h <$> body x) xs
  = fmap (M:=list) h <$> for_yield_from body xs.
Proof.
  induction xs as [|x xs IH]; simpl; [done|].
  rewrite IH. destruct (body x) as [ys|]; simpl; [|done].
  destruct (for_yield_from body xs) as [zs|]; simpl; [|done].
  by rewrite fmap_app.
Qed.

Lemma for_yield_from_is_Some {A B} (body : A → option (list B)) xs :
  Forall (λ x, is_Some (body x)) xs → is_Some (for_yield_from body xs).
Proof.
  induction 1 as [|x xs [ys Hx] _ [zs IH]]; simpl; [done|].
  rewrite Hx, IH. done.
Qed.

(** The range [range(start, 0, -1)]. *)
Lemma elem_of_range_desc k x : x ∈ range_desc k ↔ 1 ≤ x ≤ Z.of_nat k.
Proof.
  induction k as [|k IH]; simpl.
  - rewrite elem_of_nil. lia.
  - rewrite elem_of_cons, IH. lia.
Qed.

Lemma elem_of_py_range_down start x :
  x ∈ py_range_down start ↔ 1 ≤ x ≤ start.
Proof. unfold py_range_down. rewrite elem_of_range_desc. lia. Qed.

Lemma range_desc_sorted k : StronglySorted Z.gt (range_desc k).
Proof.
  induction k as [|k IH]; simpl; constructor; [done|].
  apply Forall_forall. intros x Hx%elem_of_range_desc. lia.
Qed.

(** ** Fuel: the depth of the recursion *)

Lemma partitions_fuel_mono f f' n c pre ps :
  (f ≤ f')%nat →
  partitions_fuel f n c pre = Some ps →
  partitions_fuel f' n c pre = Some ps.
Proof.
  revert f' n c pre ps.
  induction f as [|f IH]; intros [|f'] n c pre ps Hle; simpl; try done; [lia|].
  case_decide; [done|].
  apply for_yield_from_mono. intros x ys _. apply IH. lia.
Qed.

Lemma partitions_fuel_enough f n c pre :
  (Z.to_nat n < f)%nat → is_Some (partitions_fuel f n c pre).
Proof.
  revert n c pre. induction f as [|f IH]; intros n c pre Hf; [lia|].
  simpl. case_decide; [done|].
  apply for_yield_from_is_Some, Forall_forall.
  intros x Hx%elem_of_py_range_down. apply IH. lia.
Qed.

Lemma partitions_fuel_prefix f n c pre q :
  partitions_fuel f n c (pre ++ q)
  = fmap (M:=list) (app pre) <$> partitions_fuel f n c q.
Proof.
  revert n c q. induction f as [|f IH]; intros n c q; simpl; [done|].
  case_decide; [done|].
  rewrite <- for_yield_from_fmap. apply for_yield_from_ext, Forall_forall.
  intros x _. rewrite <- app_assoc. apply IH.
Qed.

Lemma partitions_fuel_parts f n c :
  (Z.to_nat n < f)%nat → partitions_fuel f n (Some c) [] = Some (parts n c).
Proof.
  intros Hf. unfold parts.
  destruct (partitions_fuel_enough (S (Z.to_nat n)) n (Some c) []) as [ps Hps];
    [lia|].
  rewrite Hps. simpl. eapply partitions_fuel_mono; [|done]. lia.
Qed.

(** The recursion equations of the enumerator, free of fuel. *)
Lemma parts_0 c : parts 0 c = [[]].
Proof. reflexivity. Qed.

Lemma parts_unfold n c :
  n ≠ 0 →
  parts n c = blocks (λ x, parts (n - x) x) (py_range_down (Z.min c n)).
Proof.
  intros Hn. unfold parts at 1. simpl. case_decide; [done|].
  unfold blocks.
  rewrite (for_yield_from_total _ _ (λ x, cons x <$> parts (n - x) x)); [done|].
  apply Forall_forall. intros x Hx%elem_of_py_range_down.
  etrans; [apply (partitions_fuel_prefix _ _ _ [x] [])|].
  rewrite partitions_fuel_parts by lia. done.
Qed.

Lemma parts_neg n c : n < 0 → parts n c = [].
Proof.
  intros Hn. rewrite parts_unfold by lia.
  unfold py_range_down. replace (Z.to_nat (Z.min c n)) with 0%nat by lia. done.
Qed.

Lemma partitions_parts n : partitions n = parts n n.
Proof. unfold partitions, parts. simpl. by case_decide. Qed.

Lemma elem_of_blocks g xs s :
  s ∈ blocks g xs ↔ ∃ x t, s = x :: t ∧ x ∈ xs ∧ t ∈ g x.
Proof.
  unfold blocks. induction xs as [|y xs IH]; simpl.
  - rewrite elem_of_nil. split; [done|].
    by intros (x & t & _ & Hx%elem_of_nil & _).
  - rewrite elem_of_app, IH, list_elem_of_fmap. split.
    + intros [(t & -> & Ht)|(x & t & -> & Hx & Ht)].
      * exists y, t. by rewrite elem_of_cons; auto.
      * exists x, t. by rewrite elem_of_cons; auto.
    + intros (x & t & -> & [->|Hx]%elem_of_cons & Ht); [left|right]; eauto.
Qed.

(** ** Sum and shape of the emitted tuples *)

(** Induction on the remaining target. *)
Lemma target_ind (Q : Z → Prop) :
  (∀ n, 0 ≤ n → (∀ m, 0 ≤ m < n → Q m) → Q n) → ∀ n, 0 ≤ n → Q n.
Proof.
  intros Hstep n Hn. revert n Hn Hn.
  refine (Z_lt_induction (λ n, 0 ≤ n → Q n) _).
  intros n IH Hn. apply Hstep; [done|]. intros m Hm. apply IH; lia.
Qed.

Lemma bounded_desc_mono b b' s : b ≤ b' → bounded_desc b s → bounded_desc b' s.
Proof. destruct s; simpl; [done|]. intros ? [? ?]. split; [lia|done]. Qed.

Lemma bounded_desc_sum b s : bounded_desc b s → 0 ≤ sum s.
Proof.
  revert b. induction s as [|a s IH]; simpl; intros b; [done|].
  intros [? Hs%IH]. lia.
Qed.

Lemma bounded_desc_shape b s :
  bounded_desc b s → non_increasing s ∧ Forall (λ a, 1 ≤ a) s.
Proof.
  revert b. induction s as [|a s IH]; simpl; intros b; [done|].
  intros [Ha Hs]. destruct (IH _ Hs) as [? ?].
  split; [split; [|done]|constructor; [lia|done]].
  destruct s; simpl in *; [done|lia].
Qed.

Lemma shape_bounded_desc b s :
  non_increasing s → Forall (λ a, 1 ≤ a) s →
  match s with [] => True | a :: _ => a ≤ b end →
  bounded_desc b s.
Proof.
  revert b. induction s as [|a s IH]; simpl; intros b; [done|].
  intros [Hh Hs] [Ha Hp]%Forall_cons Hb.
  split; [lia|]. apply IH; [done..|]. by destruct s.
Qed.

Lemma parts_sound n c s :
  0 ≤ n → s ∈ parts n c → sum s = n ∧ bounded_desc (Z.min c n) s.
Proof.
  intros Hn. revert n Hn c s.
  refine (target_ind _ _). intros n Hn IH c s.
  destruct (decide (n = 0)) as [->|Hn0].
  - rewrite parts_0. by intros ->%list_elem_of_singleton.
  - rewrite parts_unfold by done.
    intros (x & t & -> & Hx%elem_of_py_range_down & Ht)%elem_of_blocks.
    apply IH in Ht as [Hsum Hdesc]; [|lia]. simpl. split; [lia|].
    split; [lia|]. eapply bounded_desc_mono; [|done]. lia.
Qed.

Lemma parts_complete n c s :
  sum s = n → bounded_desc c s → s ∈ parts n c.
Proof.
  intros Hsum Hdesc.
  assert (0 ≤ n) as Hn by (subst n; eauto using bounded_desc_sum).
  revert n Hn c s Hsum Hdesc.
  refine (target_ind _ _). intros n Hn IH c s Hsum Hdesc.
  destruct s as [|a t]; simpl in *.
  - subst n. rewrite parts_0. by left.
  - destruct Hdesc as [Ha Ht].
    pose proof (bounded_desc_sum _ _ Ht).
    rewrite parts_unfold by lia. apply elem_of_blocks.
    exists a, t. split; [done|]. rewrite elem_of_py_range_down.
    split; [lia|]. apply IH; [lia|lia|done].
Qed.

(** [partitions n] enumerates exactly the partitions of [n]. *)
Lemma elem_of_partitions n s : s ∈ partitions n ↔ is_partition n s.
Proof.
  rewrite partitions_parts. unfold is_partition. split.
  - intros Hs. destruct (decide (0 ≤ n)) as [Hn|Hn].
    + apply parts_sound in Hs as [? ?%bounded_desc_shape]; done.
    + rewrite parts_neg in Hs by lia. by apply elem_of_nil in Hs.
  - intros (Hsum & Hni & Hpos). apply parts_complete; [done|].
    apply shape_bounded_desc; [done..|].
    destruct s as [|a t]; [done|]. simpl in Hsum.
    apply Forall_cons in Hpos as [_ Hpos].
    assert (0 ≤ sum t); [|lia].
    clear -Hpos. induction Hpos; simpl; lia.
Qed.

(** ** Order of emission *)

Lemma lex_gt_irrefl s : ¬ lex_gt s s.
Proof.
  induction s as [|a s IH]; simpl; [tauto|]. intros [?|[_ ?]]; [lia|done].
Qed.

Lemma blocks_sorted g xs :
  StronglySorted Z.gt xs →
  (∀ x, x ∈ xs → StronglySorted lex_gt (g x)) →
  StronglySorted lex_gt (blocks g xs).
Proof.
  unfold blocks. induction 1 as [|x xs Hxs IH Hx]; simpl; intros Hg.
  - constructor.
  - apply StronglySorted_app_2.
    + intros s1 s2 (t1 & -> & _)%list_elem_of_fmap Hs2.
      apply (elem_of_blocks g xs) in Hs2 as (y & t2 & -> & Hy & _).
      simpl. left. rewrite Forall_forall in Hx. specialize (Hx y Hy). lia.
    + eapply StronglySorted_fmap; [|apply Hg; by left].
      intros s t Hst. simpl. by right.
    + apply IH. intros y Hy. apply Hg. by right.
Qed.

Lemma parts_sorted n c : StronglySorted lex_gt (parts n c).
Proof.
  destruct (decide (0 ≤ n)) as [Hn|Hn];
    [|rewrite parts_neg by lia; constructor].
  revert n Hn c. refine (target_ind _ _). intros n Hn IH c.
  destruct (decide (n = 0)) as [->|Hn0].
  - rewrite parts_0. repeat constructor.
  - rewrite parts_unfold by done. apply blocks_sorted.
    + apply range_desc_sorted.
    + intros x Hx%elem_of_py_range_down. apply IH. lia.
Qed.

Lemma sorted_irrefl_NoDup {A} (R : relation A) (l : list A) :
  (∀ x, ¬ R x x) → StronglySorted R l → NoDup l.
Proof.
  intros Hirr. induction 1 as [|x l _ IH Hx]; constructor; [|done].
  intros Hin. rewrite Forall_forall in Hx. by eapply Hirr, Hx.
Qed.

Lemma partitions_4 : partitions 4 = [[4]; [3; 1]; [2; 2]; [2; 1; 1]; [1; 1; 1; 1]].
Proof. reflexivity. Qed.

(** ** Counting *)

Lemma pcount_0_r k : pcount k 0 = 1%nat.
Proof.
  induction k as [|k IH]; cbn [pcount]; [done|].
  rewrite Nat.Div0.div_0_l. simpl. rewrite IH. done.
Qed.

Lemma pcount_S_lt k n : (n < S k)%nat → pcount (S k) n = pcount k n.
Proof.
  intros Hn. cbn [pcount]. rewrite Nat.div_small by done. simpl.
  rewrite Nat.sub_0_r. lia.
Qed.

Lemma pcount_S_ge k n :
  (S k ≤ n)%nat →
  pcount (S k) n = (pcount (S k) (n - S k) + pcount k n)%nat.
Proof.
  intros Hn. cbn [pcount].
  replace (n / S k)%nat with (S ((n - S k) / S k))%nat.
  - rewrite <- (cons_seq _ 0). cbn [fmap list_fmap sum_list sum_list_with].
    rewrite Nat.mul_0_l, Nat.sub_0_r, Nat.add_comm. f_equal.
    rewrite <- fmap_S_seq, <- list_fmap_compose. f_equal.
    apply list_fmap_ext. intros _ j _. simpl. f_equal. lia.
  - replace n with ((n - S k) + 1 * S k)%nat at 2 by lia.
    rewrite Nat.div_add by done. lia.
Qed.

Lemma length_blocks g xs :
  length (blocks g xs) = sum_list ((λ x, length (g x)) <$> xs).
Proof.
  unfold blocks. induction xs as [|x xs IH]; simpl; [done|].
  by rewrite length_app, length_fmap, IH.
Qed.

Lemma parts_ceiling n c c' : Z.min c n = Z.min c' n → parts n c = parts n c'.
Proof.
  intros Hc. destruct (decide (n = 0)) as [->|Hn]; [done|].
  by rewrite !parts_unfold, Hc.
Qed.

Lemma parts_ceiling_S (k n : nat) :
  (S k ≤ n)%nat →
  parts (Z.of_nat n) (Z.of_nat (S k))
  = (cons (Z.of_nat (S k)) <$> parts (Z.of_nat (n - S k)) (Z.of_nat (S k)))
    ++ parts (Z.of_nat n) (Z.of_nat k).
Proof.
  intros Hn. rewrite !(parts_unfold (Z.of_nat n)) by lia.
  unfold py_range_down.
  replace (Z.to_nat (Z.min (Z.of_nat (S k)) (Z.of_nat n))) with (S k) by lia.
  replace (Z.to_nat (Z.min (Z.of_nat k) (Z.of_nat n))) with k by lia.
  unfold blocks. cbn [range_desc map concat].
  by rewrite Nat2Z.inj_sub.
Qed.

Lemma length_parts (k n : nat) :
  length (parts (Z.of_nat n) (Z.of_nat k)) = pcount k n.
Proof.
  revert n. induction k as [|k IHk]; intros n.
  - destruct n as [|n]; [done|].
    rewrite parts_unfold by lia. unfold py_range_down.
    by replace (Z.to_nat (Z.min (Z.of_nat 0) (Z.of_nat (S n)))) with 0%nat by lia.
  - induction (lt_wf n) as [n _ IHn].
    destruct (decide (S k ≤ n)%nat) as [Hle|Hlt].
    + rewrite parts_ceiling_S, pcount_S_ge by done.
      rewrite length_app, length_fmap, IHn, IHk by lia. done.
    + rewrite pcount_S_lt, <- IHk by lia. f_equal.
      apply parts_ceiling. lia.
Qed.

Lemma length_partitions n : 0 ≤ n → length (partitions n) = p (Z.to_nat n).
Proof.
  intros Hn. rewrite partitions_parts. unfold p.
  rewrite <- length_parts, Z2Nat.id by done. done.
Qed.

Lemma non_increasing_lookup s i a b :
  non_increasing s → s !! i = Some a → s !! S i = Some b → b ≤ a.
Proof.
  revert i. induction s as [|a' s IH]; intros i; simpl; [done|].
  intros [Hh Hs]. destruct i as [|i]; simpl.
  - intros [= ->]. destruct s; simpl; [done|]. by intros [= ->].
  - apply IH, Hs.
Qed.

Lemma partitions_fuel_partitions fuel n :
  (Z.to_nat n < fuel)%nat → partitions_fuel fuel n None [] = Some (partitions n).
Proof.
  intros Hf. unfold partitions.
  destruct (partitions_fuel_enough (S (Z.to_nat n)) n None []) as [ps Hps];
    [lia|].
  rewrite Hps. simpl. eapply partitions_fuel_mono; [|done]. lia.
Qed.

(** Any duplicate-free list of all the partitions of [n] has as many
    elements as [partitions n] yields: the length of [partitions n] is
    the number of partitions of [n]. *)
Lemma partitions_cardinal n (L : list (list Z)) :
  NoDup L → (∀ s, s ∈ L ↔ is_partition n s) →
  length L = length (partitions n).
Proof.
  intros HL Hall. apply Permutation_length, NoDup_Permutation; [done| |].
  - rewrite partitions_parts.
    eapply sorted_irrefl_NoDup; [apply lex_gt_irrefl|apply parts_sorted].
  - intros s. by rewrite Hall, elem_of_partitions.
Qed.

(** ** The claims on the enumerator *)

(** C1. For every [n >= 0], every tuple [P] yielded by [partitions(n)]
    has [sum(P) == n]. *)
Theorem partitions_sum (n : Z) (P : list Z) :
  0 ≤ n → P ∈ partitions n → sum P = n.
Proof.
  intros Hn HP. rewrite partitions_parts in HP.
  by apply parts_sound in HP as [? _].
Qed.

Lemma partitions_sum_witness :
  0 ≤ 6 ∧ [3; 2; 1] ∈ partitions 6 ∧ sum [3; 2; 1] = 6.
Proof.
  assert ([3; 2; 1] ∈ partitions 6) as Hin
    by (vm_compute; repeat first [by left | right]).
  split; [lia|]. split; [exact Hin|].
  apply (partitions_sum 6 [3; 2; 1]); [lia|exact Hin].
Defined.

(** C2. For every [n >= 0] and every tuple [P] yielded by
    [partitions(n)], each addend of [P] is at least the following addend
    and every addend is at least 1. *)
Theorem partitions_non_increasing (n : Z) (P : list Z) :
  0 ≤ n → P ∈ partitions n →
  (∀ i a b, P !! i = Some a → P !! S i = Some b → b ≤ a)
  ∧ (∀ a, a ∈ P → 1 ≤ a).
Proof.
  intros Hn HP. rewrite partitions_parts in HP.
  apply parts_sound in HP as [_ [Hni Hpos]%bounded_desc_shape]; [|done].
  split.
  - intros i a b. by apply non_increasing_lookup.
  - intros a Ha. by rewrite Forall_forall in Hpos; apply Hpos.
Qed.

Lemma partitions_non_increasing_witness :
  0 ≤ 5 ∧ [2; 2; 1] ∈ partitions 5
  ∧ (∀ i a b, [2; 2; 1] !! i = Some a → [2; 2; 1] !! S i = Some b → b ≤ a)
  ∧ (∀ a, a ∈ [2; 2; 1] → 1 ≤ a).
Proof.
  assert ([2; 2; 1] ∈ partitions 5) as Hin
    by (vm_compute; repeat first [by left | right]).
  split; [lia|]. split; [exact Hin|].
  apply (partitions_non_increasing 5 [2; 2; 1]); [lia|exact Hin].
Defined.

(** C3. The number of tuples yielded by [partitions(n)] is the partition
    number [p(n)]; for [n = 0, ..., 7] it is 1, 1, 2, 3, 5, 7, 11, 15. *)
Theorem partitions_count :
  (∀ n : nat, length (partitions (Z.of_nat n)) = p n)
  ∧ (λ n, length (partitions n)) <$> [0; 1; 2; 3; 4; 5; 6; 7]
    = [1; 1; 2; 3; 5; 7; 11; 15]%nat
  ∧ p <$> seq 0 8 = [1; 1; 2; 3; 5; 7; 11; 15]%nat.
Proof.
  split; [|split; reflexivity].
  intros n. rewrite length_partitions, Nat2Z.id by lia. done.
Qed.

(** C4. [partitions(n)] yields its tuples in reverse-lexicographic
    order: a tuple yielded earlier has the larger addend at the first
    position where it differs from a tuple yielded later.  In particular
    [partitions(4)] yields (4), (3,1), (2,2), (2,1,1), (1,1,1,1) in this
    order. *)
Theorem partitions_order :
  (∀ n, StronglySorted lex_gt (partitions n))
  ∧ (∀ n i j s t, (i < j)%nat →
       partitions n !! i = Some s → partitions n !! j = Some t → lex_gt s t)
  ∧ partitions 4 = [[4]; [3; 1]; [2; 2]; [2; 1; 1]; [1; 1; 1; 1]].
Proof.
  assert (∀ n, StronglySorted lex_gt (partitions n)) as Hsorted
    by (intros n; rewrite partitions_parts; apply parts_sorted).
  split; [done|]. split; [|reflexivity].
  intros n i j s t Hij Hi Hj.
  rewrite <- (take_drop_middle _ _ _ Hj) in Hi.
  pose proof (Hsorted n) as Hn.
  rewrite <- (take_drop_middle _ _ _ Hj) in Hn.
  apply lookup_lt_Some in Hj as Hlen.
  eapply StronglySorted_app_1_elem_of; [exact Hn| |by left].
  rewrite lookup_app_l in Hi by (rewrite length_take; lia).
  by eapply list_elem_of_lookup_2.
Qed.

Lemma partitions_order_witness :
  (0 < 2)%nat
  ∧ partitions 4 !! 0%nat = Some [4] ∧ partitions 4 !! 2%nat = Some [2; 2]
  ∧ lex_gt [4] [2; 2].
Proof.
  split; [lia|]. split; [reflexivity|]. split; [reflexivity|].
  destruct partitions_order as (_ & Hord & _).
  apply (Hord 4 0%nat 2%nat); [lia|reflexivity|reflexivity].
Defined.

(** C5. For every [n], [partitions(n)] yields no tuple twice. *)
Theorem partitions_NoDup (n : Z) : NoDup (partitions n).
Proof.
  rewrite partitions_parts.
  eapply sorted_irrefl_NoDup; [apply lex_gt_irrefl|apply parts_sorted].
Qed.

(** C6, as amended.  The tuples with exactly 3 addends are selected from
    the output of [partitions(n)] in the order of emission; for [n = 6]
    they are (4,1,1), (3,2,1), (2,2,2), for [n = 3] only (1,1,1), and for
    [n = 4] only (2,1,1), one tuple. *)
Theorem parts_k3_filter :
  (∀ n, parts_k3 n `sublist_of` partitions n)
  ∧ (∀ n s, s ∈ parts_k3 n ↔ s ∈ partitions n ∧ length s = 3%nat)
  ∧ parts_k3 6 = [[4; 1; 1]; [3; 2; 1]; [2; 2; 2]]
  ∧ length (parts_k3 6) = 3%nat
  ∧ parts_k3 3 = [[1; 1; 1]]
  ∧ length (parts_k3 3) = 1%nat
  ∧ parts_k3 4 = [[2; 1; 1]]
  ∧ length (parts_k3 4) = 1%nat.
Proof.
  split; [intros n; apply sublist_filter|].
  split; [|split_and!; vm_compute; reflexivity].
  intros n s. unfold parts_k3. rewrite list_elem_of_filter. tauto.
Qed.

(** C6, as stated, fails at [n = 4]: the selection is not empty, since
    (2,1,1) is a partition of 4 with exactly 3 addends. *)
Lemma parts_k3_4_not_empty :
  parts_k3 4 = [[2; 1; 1]]
  ∧ ¬ (parts_k3 4 = [] ∧ length (parts_k3 4) = 0%nat).
Proof.
  split; [vm_compute; reflexivity|].
  intros [Hempty _]. vm_compute in Hempty. discriminate Hempty.
Qed.

(** C7. For every [n >= 0] the enumeration terminates: every addend [x]
    tried by the loop is at least 1, so the remaining target [n - x] of
    the recursive call is smaller by at least 1 (and not negative), and
    [n] nested calls below the first one always suffice. *)
Theorem partitions_terminates (n : Z) :
  0 ≤ n →
  (∀ c x, n ≠ 0 → x ∈ py_range_down (Z.min (default n c) n) →
     1 ≤ x ∧ 0 ≤ n - x ≤ n - 1)
  ∧ (∀ fuel c prefix, (Z.to_nat n < fuel)%nat →
       is_Some (partitions_fuel fuel n c prefix))
  ∧ (∀ fuel, (Z.to_nat n < fuel)%nat →
       partitions_fuel fuel n None [] = Some (partitions n)).
Proof.
  intros Hn. split; [|split].
  - intros c x _ Hx%elem_of_py_range_down. lia.
  - intros fuel c prefix. apply partitions_fuel_enough.
  - intros fuel. apply partitions_fuel_partitions.
Qed.

Lemma partitions_terminates_witness :
  0 ≤ 3
  ∧ partitions_fuel 4 3 None [] = Some [[3]; [2; 1]; [1; 1; 1]].
Proof.
  split; [lia|].
  destruct (partitions_terminates 3) as (_ & _ & Hrun); [lia|].
  apply (Hrun 4%nat). vm_compute. lia.
Defined.

(** The body on values of any type agrees with the enumerator on
    integers. *)
Lemma for_yield_from_dyn_Finished {A} (body : A → option (list (list Z))) xs :
  for_yield_from_dyn (λ x, Finished <$> body x) xs
  = Finished <$> for_yield_from body xs.
Proof.
  induction xs as [|x xs IH]; simpl; [done|].
  rewrite IH. destruct (body x) as [ys|]; simpl; [|done].
  by destruct (for_yield_from body xs).
Qed.

Lemma for_yield_from_dyn_ext {A} (body body' : A → option outcome) xs :
  (∀ x, body x = body' x) →
  for_yield_from_dyn body xs = for_yield_from_dyn body' xs.
Proof.
  intros Hb. induction xs as [|x xs IH]; simpl; [done|]. by rewrite Hb, IH.
Qed.

Lemma partitions_dyn_fuel_int fuel z (c : option Z) prefix :
  partitions_dyn_fuel fuel (PyInt z)
    (match c with Some m => PyInt m | None => PyNone end) prefix
  = Finished <$> partitions_fuel fuel z c prefix.
Proof.
  revert z c prefix. induction fuel as [|fuel IH]; intros z c prefix; [done|].
  cbn [partitions_dyn_fuel partitions_fuel py_eq_zero].
  destruct (decide (z = 0)) as [Hz|Hz].
  - by rewrite bool_decide_true.
  - rewrite bool_decide_false by done.
    assert (py_min (match match c with Some m => PyInt m | None => PyNone end with
                    | PyNone => PyInt z
                    | _ => match c with Some m => PyInt m | None => PyNone end
                    end) (PyInt z)
            = inr (PyInt (Z.min (default z c) z))) as ->.
    { destruct c as [m|]; simpl; case_decide; do 2 f_equal; lia. }
    cbn [py_range py_sub].
    rewrite <- for_yield_from_dyn_Finished.
    apply for_yield_from_dyn_ext. intros x. apply (IH _ (Some x)).
Qed.

Lemma partitions_dyn_int z : partitions_dyn (PyInt z) = Finished (partitions z).
Proof.
  unfold partitions_dyn, dyn_frames.
  rewrite (partitions_dyn_fuel_int _ z None).
  by rewrite partitions_fuel_partitions by lia.
Qed.

Lemma partitions_dyn_fuel_enough n :
  partitions_dyn_fuel (dyn_frames n) n PyNone [] = Some (partitions_dyn n).
Proof.
  destruct n as [z|s|].
  - rewrite partitions_dyn_int. unfold dyn_frames.
    rewrite (partitions_dyn_fuel_int _ z None).
    by rewrite partitions_fuel_partitions by lia.
  - unfold partitions_dyn. simpl. by destruct (String.ltb s s).
  - reflexivity.
Qed.

(** C8, as amended.  A negative integer is not rejected: [n == 0] is
    false, [range(min(n, n), 0, -1)] is empty, and the enumeration
    finishes normally with nothing yielded.  A string is rejected by the
    [TypeError] of [range], and [None] by the [TypeError] of [min], both
    before anything is yielded. *)
Theorem partitions_invalid_input :
  (∀ z, z < 0 → partitions_dyn (PyInt z) = Finished [])
  ∧ (∀ s, partitions_dyn (PyStr s) = Raised [] TypeError)
  ∧ partitions_dyn PyNone = Raised [] TypeError.
Proof.
  split_and!.
  - intros z Hz. by rewrite partitions_dyn_int, partitions_parts, parts_neg.
  - intros s. unfold partitions_dyn.
    cbn [dyn_frames partitions_dyn_fuel py_eq_zero py_min].
    by destruct (String.ltb s s).
  - reflexivity.
Qed.

Lemma partitions_invalid_input_witness :
  -3 < 0 ∧ partitions_dyn (PyInt (-3)) = Finished [].
Proof.
  split; [lia|].
  destruct partitions_invalid_input as (Hneg & _).
  apply (Hneg (-3)). lia.
Defined.

(** C8, as stated, fails at [n = -1]: it is not a valid input, and it is
    not rejected. *)
Lemma partitions_negative_not_rejected :
  ¬ valid_input (PyInt (-1))
  ∧ partitions_dyn (PyInt (-1)) = Finished []
  ∧ ¬ rejected (PyInt (-1)).
Proof.
  split; [|split].
  - intros (z & [= <-] & Hz). lia.
  - reflexivity.
  - intros (e & He). discriminate He.
Qed.

(** * Properties of the relation matrices *)

Import Relation.

Section relation_facts.
Local Open Scope nat_scope.
Implicit Types (A : list string) (pairs : list (string * string)).
Implicit Types (M : list (list Z)) (idx : gmap string nat).

(** ** The index of the labels *)

Lemma index_of_snoc A a : index_of (A ++ [a]) = <[a := length A]> (index_of A).
Proof.
  unfold index_of. rewrite imap_app, foldl_app. simpl.
  by rewrite Nat.add_0_r.
Qed.

Lemma index_of_lookup_Some A a i : index_of A !! a = Some i → A !! i = Some a.
Proof.
  induction A as [|b A IH] using rev_ind; [done|].
  rewrite index_of_snoc, lookup_insert. case_decide as Hab.
  - intros [= <-]. subst b. by rewrite lookup_app_r, Nat.sub_diag.
  - intros Hi%IH. by apply lookup_app_l_Some.
Qed.

Lemma index_of_lookup_NoDup A a i :
  NoDup A → A !! i = Some a → index_of A !! a = Some i.
Proof.
  induction A as [|b A IH] using rev_ind; [done|].
  rewrite NoDup_app. intros (HA & Hb & _).
  rewrite index_of_snoc, lookup_app_Some.
  intros [Hi|[Hlen Hi]].
  - rewrite lookup_insert_ne; [by apply IH|].
    intros ->. eapply Hb; [by eapply list_elem_of_lookup_2|by left].
  - destruct (i - length A) as [|k] eqn:Hk; [|done].
    injection Hi as ->. replace i with (length A) by lia.
    apply lookup_insert_eq.
Qed.

Lemma index_of_lt A a i : index_of A !! a = Some i → i < length A.
Proof. intros Hi%index_of_lookup_Some. by eapply lookup_lt_Some. Qed.

Lemma index_of_not_elem A a : a ∉ A → index_of A !! a = None.
Proof.
  intros Ha. destruct (index_of A !! a) as [i|] eqn:Hi; [|done].
  destruct Ha. apply index_of_lookup_Some in Hi.
  by eapply list_elem_of_lookup_2.
Qed.

(** ** Reading and writing entries *)

Lemma zeros_square n : square n (zeros n).
Proof.
  split; [apply length_replicate|].
  apply Forall_replicate, length_replicate.
Qed.

Lemma entry_zeros n i j : i < n → j < n → entry (zeros n) i j = Some 0%Z.
Proof.
  intros Hi Hj. unfold entry, zeros.
  rewrite lookup_replicate_2 by done. simpl.
  by rewrite lookup_replicate_2.
Qed.

Lemma square_lookup n M i :
  square n M → i < n → ∃ row, M !! i = Some row ∧ length row = n.
Proof.
  intros [Hlen Hrows] Hi.
  destruct (lookup_lt_is_Some_2 M i) as [row Hrow]; [lia|].
  exists row. split; [done|].
  rewrite Forall_forall in Hrows. by eapply Hrows, list_elem_of_lookup_2.
Qed.

Lemma set_entry_spec n M i j v :
  square n M → i < n → j < n →
  ∃ M', set_entry M i j v = Some M' ∧ square n M'
    ∧ ∀ i' j', entry M' i' j'
               = if decide (i' = i ∧ j' = j) then Some v else entry M i' j'.
Proof.
  intros HM Hi Hj.
  destruct (square_lookup n M i HM Hi) as (row & Hrow & Hlen).
  exists (<[i := <[j := v]> row]> M). split; [|split].
  - unfold set_entry, set_item. rewrite Hrow. simpl.
    rewrite decide_True by lia. done.
  - destruct HM as [HlenM Hrows]. split; [by rewrite length_insert|].
    apply Forall_insert; [done|]. by rewrite length_insert.
  - intros i' j'. unfold entry. destruct HM as [HlenM _].
    destruct (decide (i' = i)) as [->|Hi'].
    + rewrite list_lookup_insert_eq by lia. rewrite Hrow. simpl.
      destruct (decide (j' = j)) as [->|Hj'].
      * rewrite decide_True by done. apply list_lookup_insert_eq. lia.
      * rewrite decide_False by tauto. by apply list_lookup_insert_ne.
    + rewrite decide_False by tauto. by rewrite list_lookup_insert_ne.
Qed.
(** ** The loop over the pairs *)

Lemma represents_zeros idx n : represents idx n (zeros n) [].
Proof.
  split; [apply zeros_square|]. intros i j Hi Hj.
  rewrite entry_zeros by done. split; [by right|]. split; [done|].
  by intros (x & y & Hxy%elem_of_nil & _).
Qed.

Lemma mark_represents idx n M seen xy :
  (∀ a i, idx !! a = Some i → i < n) →
  represents idx n M seen →
  ∃ M', mark idx M xy = Some M' ∧ represents idx n M' (seen ++ [xy]).
Proof.
  intros Hidx [HM Hent]. destruct xy as [x y]. unfold mark. simpl.
  destruct (idx !! x) as [i|] eqn:Hx, (idx !! y) as [j|] eqn:Hy.
  1: { destruct (set_entry_spec n M i j 1%Z HM) as (M' & -> & HM' & Hent');
      [by eapply Hidx..|].
    exists M'. split; [done|]. split; [done|]. intros i' j' Hi' Hj'.
    rewrite Hent'. destruct (Hent i' j' Hi' Hj') as [H01 Hiff].
    case_decide as Hij.
    + destruct Hij as [-> ->]. split; [by left|]. split; [|done].
      intros _. exists x, y. rewrite elem_of_app, list_elem_of_singleton. auto.
    + split; [done|]. rewrite Hiff. split.
      * intros (x' & y' & Hin & ? & ?). exists x', y'.
        rewrite elem_of_app. auto.
      * intros (x' & y' & [Hin|Heq%list_elem_of_singleton]%elem_of_app & Hx' & Hy').
        -- eauto.
        -- injection Heq as -> ->. destruct Hij. split; congruence. }
  all: exists M; split; [done|]; split; [done|]; intros i' j' Hi' Hj'.
  all: destruct (Hent i' j' Hi' Hj') as [H01 Hiff]; split; [done|].
  all: rewrite Hiff; split.
  all: try (intros (x' & y' & Hin & ? & ?); exists x', y';
            rewrite elem_of_app; by auto).
  all: intros (x' & y' & [Hin|Heq%list_elem_of_singleton]%elem_of_app
               & Hx' & Hy'); [by eauto|].
  all: injection Heq as -> ->; congruence.
Qed.

Lemma mark_all_represents idx n M seen pairs :
  (∀ a i, idx !! a = Some i → i < n) →
  represents idx n M seen →
  ∃ M', mark_all idx M pairs = Some M' ∧ represents idx n M' (seen ++ pairs).
Proof.
  intros Hidx. revert M seen.
  induction pairs as [|xy pairs IH]; intros M seen HM; simpl.
  - exists M. by rewrite app_nil_r.
  - destruct (mark_represents idx n M seen xy Hidx HM) as (M1 & -> & HM1).
    simpl. rewrite cons_middle, app_assoc. by apply IH.
Qed.

Lemma build_matrix_represents A pairs :
  ∃ M, build_matrix A pairs = Some M
       ∧ represents (index_of A) (length A) M pairs.
Proof.
  unfold build_matrix.
  apply (mark_all_represents _ _ _ []); [|apply represents_zeros].
  intros a i. apply index_of_lt.
Qed.

Lemma mark_all_app idx M pairs1 pairs2 :
  mark_all idx M (pairs1 ++ pairs2)
  = mark_all idx M pairs1 ≫= λ M', mark_all idx M' pairs2.
Proof.
  revert M. induction pairs1 as [|xy pairs1 IH]; intros M; simpl; [done|].
  destruct (mark idx M xy) as [M1|]; simpl; [apply IH|done].
Qed.

Lemma mark_outside idx M x y :
  idx !! x = None ∨ idx !! y = None → mark idx M (x, y) = Some M.
Proof.
  unfold mark. simpl. intros [-> | ->]; [done|]. by destruct (idx !! x).
Qed.
(** ** Transposition *)

Lemma zip_star_spec M m :
  M ≠ [] → Forall (λ row, length row = m) M →
  length (zip_star M) = m
  ∧ Forall (λ col, length col = length M) (zip_star M)
  ∧ ∀ i j, entry (zip_star M) j i = entry M i j.
Proof.
  induction M as [|row M IH]; [done|]. intros _ [Hrow HM]%Forall_cons.
  destruct M as [|row' M].
  - simpl. split; [by rewrite length_fmap|]. split.
    + apply Forall_fmap, Forall_true. done.
    + intros i j. unfold entry. rewrite list_lookup_fmap.
      destruct i as [|i]; simpl; by destruct (row !! j).
  - destruct IH as (Hlen & Hcols & Hent); [done..|].
    change (zip_star (row :: row' :: M))
      with (zip_with cons row (zip_star (row' :: M))).
    set (Z' := zip_star (row' :: M)) in *. split; [|split].
    + rewrite length_zip_with. lia.
    + apply Forall_forall. intros col Hcol.
      apply elem_of_zip_with in Hcol as (v & c & -> & _ & Hc).
      rewrite Forall_forall in Hcols. simpl. f_equal. by apply Hcols.
    + intros i j. unfold entry at 1. rewrite lookup_zip_with.
      destruct (row !! j) as [v|] eqn:Hv; simpl.
      * destruct (lookup_lt_is_Some_2 Z' j) as [c Hc];
          [apply lookup_lt_Some in Hv; lia|].
        rewrite Hc. simpl. destruct i as [|i]; simpl.
        -- unfold entry. simpl. done.
        -- specialize (Hent i j). unfold entry in Hent at 1.
           rewrite Hc in Hent. simpl in Hent. rewrite Hent. done.
      * apply lookup_ge_None in Hv.
        destruct i as [|i]; simpl.
        -- unfold entry. simpl. symmetry. by apply lookup_ge_None.
        -- change (entry (row :: row' :: M) (S i) j)
             with (entry (row' :: M) i j).
           rewrite <- (Hent i j). unfold entry.
           rewrite (lookup_ge_None_2 Z' j) by lia. done.
Qed.

Lemma transpose_spec n M :
  square n M →
  square n (transpose M) ∧ ∀ i j, entry (transpose M) i j = entry M j i.
Proof.
  intros [Hlen Hrows]. destruct M as [|row M]; [by subst n|].
  destruct (zip_star_spec (row :: M) n) as (Hz & Hcols & Hent); [done..|].
  unfold transpose. split; [split; [done|]|done].
  eapply Forall_impl; [exact Hcols|]. simpl. intros; simpl in *; lia.
Qed.

Lemma matrix_ext n M M' :
  square n M → square n M' →
  (∀ i j, i < n → j < n → entry M i j = entry M' i j) → M = M'.
Proof.
  intros HM HM' Hent. apply list_eq. intros i.
  destruct (decide (i < n)) as [Hi|Hi].
  - destruct (square_lookup n M i HM Hi) as (row & Hrow & Hlen).
    destruct (square_lookup n M' i HM' Hi) as (row' & Hrow' & Hlen').
    rewrite Hrow, Hrow'. f_equal. apply list_eq. intros j.
    destruct (decide (j < n)) as [Hj|Hj].
    + specialize (Hent i j Hi Hj). unfold entry in Hent.
      by rewrite Hrow, Hrow' in Hent.
    + by rewrite !lookup_ge_None_2 by lia.
  - destruct HM as [? _], HM' as [? _]. by rewrite !lookup_ge_None_2 by lia.
Qed.

Lemma transpose_build_matrix A pairs :
  ∃ M, build_matrix A pairs = Some M
       ∧ build_matrix A (swapped pairs) = Some (transpose M).
Proof.
  destruct (build_matrix_represents A pairs) as (M & HM & Hsq & Hent).
  destruct (build_matrix_represents A (swapped pairs))
    as (M' & HM' & Hsq' & Hent').
  exists M. split; [done|]. rewrite HM'. f_equal.
  destruct (transpose_spec _ M Hsq) as [HsqT HentT].
  apply (matrix_ext (length A)); [done..|].
  intros i j Hi Hj. rewrite HentT.
  destruct (Hent j i Hj Hi) as [H01 Hiff].
  destruct (Hent' i j Hi Hj) as [H01' Hiff'].
  assert (entry M' i j = Some 1%Z ↔ entry M j i = Some 1%Z) as Hsame.
  { rewrite Hiff, Hiff'. unfold swapped. split.
    - intros (x & y & Hin & Hx & Hy). exists y, x.
      apply list_elem_of_fmap in Hin as ([x' y'] & [= -> ->] & Hin). auto.
    - intros (x & y & Hin & Hx & Hy). exists y, x.
      split; [|done]. apply list_elem_of_fmap. by exists (x, y). }
  destruct H01 as [H1|H0], H01' as [H1'|H0']; try congruence.
  - apply Hsame in H1. congruence.
  - apply Hsame in H1'. congruence.
Qed.
(** ** The claims on the matrices *)

(** C9. For labels [A] without repetition, [build_matrix(A, pairs)]
    returns [len(A)] rows of [len(A)] entries, all 0 or 1, with
    [M[i][j] == 1] exactly when the pair [(A[i], A[j])] occurs in
    [pairs]; a pair with a label that is not in [A] changes nothing. *)
Theorem build_matrix_spec A :
  NoDup A →
  (∀ pairs, ∃ M,
     build_matrix A pairs = Some M
     ∧ length M = length A
     ∧ (∀ row, row ∈ M → length row = length A)
     ∧ (∀ row v, row ∈ M → v ∈ row → v = 0%Z ∨ v = 1%Z)
     ∧ (∀ i j x y, A !! i = Some x → A !! j = Some y →
          (entry M i j = Some 1%Z ↔ (x, y) ∈ pairs)))
  ∧ (∀ pairs1 pairs2 x y, x ∉ A ∨ y ∉ A →
       build_matrix A (pairs1 ++ (x, y) :: pairs2)
       = build_matrix A (pairs1 ++ pairs2)).
Proof.
  intros HA. split.
  - intros pairs.
    destruct (build_matrix_represents A pairs) as (M & HM & [Hlen Hrows] & Hent).
    exists M. rewrite Forall_forall in Hrows. split_and!; [done..| |].
    + intros row v [i Hi]%list_elem_of_lookup_1 [j Hj]%list_elem_of_lookup_1.
      pose proof (Hrows row (list_elem_of_lookup_2 _ _ _ Hi)) as Hrow.
      apply lookup_lt_Some in Hi as Hi', Hj as Hj'.
      destruct (Hent i j) as [H01 _]; [lia..|].
      unfold entry in H01. rewrite Hi in H01. simpl in H01.
      rewrite Hj in H01. destruct H01 as [[= ->]|[= ->]]; auto.
    + intros i j x y Hx Hy.
      apply lookup_lt_Some in Hx as Hi, Hy as Hj.
      destruct (Hent i j Hi Hj) as [_ ->]. split.
      * intros (x' & y' & Hin & Hx'%index_of_lookup_Some
                & Hy'%index_of_lookup_Some). congruence.
      * intros Hin. exists x, y. auto using index_of_lookup_NoDup.
  - intros pairs1 pairs2 x y Hout. unfold build_matrix.
    rewrite !mark_all_app. destruct (mark_all _ _ pairs1) as [M|]; [|done].
    simpl. rewrite mark_outside; [done|].
    destruct Hout; [left|right]; by apply index_of_not_elem.
Qed.

Lemma build_matrix_spec_witness :
  NoDup ["a"; "b"; "c"]%string
  ∧ ∃ M, build_matrix ["a"; "b"; "c"]%string [("a", "b"); ("c", "a")]%string
         = Some M
       ∧ (entry M 0 1 = Some 1%Z
          ↔ ("a", "b")%string ∈ [("a", "b"); ("c", "a")]%string).
Proof.
  assert (NoDup ["a"; "b"; "c"]%string) as HA
    by (apply (bool_decide_unpack _); vm_compute; exact I).
  split; [exact HA|].
  destruct (build_matrix_spec ["a"; "b"; "c"]%string HA) as [Hspec _].
  destruct (Hspec [("a", "b"); ("c", "a")]%string)
    as (M & HM & _ & _ & _ & Hent).
  exists M. split; [exact HM|]. by apply Hent.
Defined.

(** Labels that repeat are indexed at their last position only. *)
Example build_matrix_repeated_label :
  build_matrix ["a"; "b"; "a"]%string [("a", "b")]%string
  = Some [[0; 0; 0]; [0; 0; 0]; [0; 1; 0]]%Z.
Proof. reflexivity. Qed.

(** C10. The transpose of the matrix of a relation is the matrix of the
    inverse relation: [transpose(build_matrix(A, pairs))] is
    [build_matrix(A, swapped)], where [swapped] has [(y, x)] for every
    [(x, y)] of [pairs].  (This holds whether or not the labels of [A]
    are distinct.) *)
Theorem transpose_inverse_relation A pairs :
  is_Some (build_matrix A pairs)
  ∧ transpose <$> build_matrix A pairs = build_matrix A (swapped pairs).
Proof.
  destruct (transpose_build_matrix A pairs) as (M & HM & HM').
  rewrite HM, HM'. split; [by eexists|done].
Qed.
End relation_facts.

(** * Further properties of the enumerator and of its report *)

Import Report.

Lemma sum_pos_length s : Forall (λ a, 1 ≤ a) s → Z.of_nat (length s) ≤ sum s.
Proof. induction 1; simpl; lia. Qed.

Lemma sum_pos_le s a : Forall (λ a, 1 ≤ a) s → a ∈ s → a ≤ sum s.
Proof.
  induction 1 as [|b s Hb Hs IH]; intros Ha.
  - by apply elem_of_nil in Ha.
  - pose proof (sum_pos_length s Hs).
    apply elem_of_cons in Ha as [->|Ha%IH]; simpl; lia.
Qed.

Lemma for_yield_from_None {A B} (body : A → option (list B)) xs x :
  x ∈ xs → body x = None → for_yield_from body xs = None.
Proof.
  intros Hin Hx. induction xs as [|y xs IH]; [by apply elem_of_nil in Hin|].
  simpl. apply elem_of_cons in Hin as [<-|Hin].
  - by rewrite Hx.
  - rewrite (IH Hin). by destruct (body y).
Qed.

Lemma partitions_fuel_short f n c pre :
  1 ≤ n → 1 ≤ default n c → (f ≤ Z.to_nat n)%nat →
  partitions_fuel f n c pre = None.
Proof.
  revert n c pre. induction f as [|f IH]; intros n c pre Hn Hc Hf; [done|].
  simpl. case_decide; [lia|].
  apply (for_yield_from_None _ _ 1); [apply elem_of_py_range_down; lia|].
  destruct (decide (n - 1 = 0)) as [Hn1|Hn1].
  - destruct f; [done|lia].
  - apply IH; simpl; lia.
Qed.

Lemma head_blocks g x xs :
  g x ≠ [] → head (blocks g (x :: xs)) = cons x <$> head (g x).
Proof. intros Hg. unfold blocks. simpl. destruct (g x); [done|reflexivity]. Qed.

Lemma last_blocks_snoc g xs x :
  g x ≠ [] → last (blocks g (xs ++ [x])) = cons x <$> last (g x).
Proof.
  intros Hg. unfold blocks. rewrite map_app, concat_app. simpl.
  rewrite app_nil_r.
  destruct (g x) as [|t ts _] using rev_ind; [done|].
  rewrite fmap_app. change (cons x <$> [t]) with [x :: t].
  by rewrite app_assoc, !last_snoc.
Qed.

Lemma range_desc_snoc k : range_desc (S k) = ((λ x, x + 1) <$> range_desc k) ++ [1].
Proof.
  induction k as [|k IH]; [done|].
  change (range_desc (S (S k))) with (Z.of_nat (S (S k)) :: range_desc (S k)).
  rewrite IH at 1. simpl. f_equal. lia.
Qed.

Lemma last_parts_ones (k : nat) c :
  1 ≤ c → last (parts (Z.of_nat k) c) = Some (replicate k 1).
Proof.
  revert c. induction k as [|k IH]; intros c Hc; [done|].
  rewrite parts_unfold by lia. unfold py_range_down.
  destruct (Z.to_nat (Z.min c (Z.of_nat (S k)))) as [|m] eqn:Hm; [lia|].
  rewrite range_desc_snoc.
  replace (Z.of_nat (S k) - 1) with (Z.of_nat k) in * by lia.
  assert (last (parts (Z.of_nat k) 1) = Some (replicate k 1)) as Hlast
    by (apply IH; lia).
  rewrite last_blocks_snoc.
  - replace (Z.of_nat (S k) - 1) with (Z.of_nat k) by lia. by rewrite Hlast.
  - replace (Z.of_nat (S k) - 1) with (Z.of_nat k) by lia.
    intros Hnil. by rewrite Hnil in Hlast.
Qed.

(** ** Extra properties *)

(** X1. [partitions(n)] yields exactly the partitions of [n]: a tuple is
    yielded if and only if its addends are non-increasing, all at least
    1, and sum to [n].  For [n < 0] there is none. *)
Theorem partitions_exact (n : Z) (s : list Z) :
  s ∈ partitions n ↔
    sum s = n
    ∧ (∀ i a b, s !! i = Some a → s !! S i = Some b → b ≤ a)
    ∧ (∀ a, a ∈ s → 1 ≤ a).
Proof.
  rewrite elem_of_partitions. unfold is_partition. split.
  - intros (Hsum & Hni & Hpos). split_and!; [done| |].
    + intros i a b. by apply non_increasing_lookup.
    + by apply Forall_forall.
  - intros (Hsum & Hni & Hpos). split_and!; [done| |by apply Forall_forall].
    clear Hsum Hpos. induction s as [|a s IH]; simpl; [done|]. split.
    + destruct s as [|b s]; [done|]. by apply (Hni 0%nat).
    + apply IH. intros i. apply (Hni (S i)).
Qed.

(** X2. A call [partitions(n, c, prefix)] with an explicit ceiling yields
    exactly the tuples [prefix + s] where [s] is a partition of [n] whose
    addends are all at most [c]. *)
Theorem partitions_ceiling_prefix (fuel : nat) (n c : Z) (prefix : list Z) :
  (Z.to_nat n < fuel)%nat →
  ∃ ps, partitions_fuel fuel n (Some c) prefix = Some ps
        ∧ ∀ t, t ∈ ps ↔ ∃ s, t = prefix ++ s ∧ sum s = n ∧ bounded_desc c s.
Proof.
  intros Hf. exists (app prefix <$> parts n c). split.
  - rewrite <- (app_nil_r prefix) at 1.
    by rewrite partitions_fuel_prefix, partitions_fuel_parts.
  - intros t. rewrite list_elem_of_fmap. split.
    + intros (s & -> & Hs). exists s. split; [done|].
      destruct (decide (0 ≤ n)) as [Hn|Hn].
      * apply parts_sound in Hs as [? Hd]; [|done]. split; [done|].
        eapply bounded_desc_mono; [|done]. lia.
      * rewrite parts_neg in Hs by lia. by apply elem_of_nil in Hs.
    + intros (s & -> & Hsum & Hd). exists s. split; [done|].
      by apply parts_complete.
Qed.

Lemma partitions_ceiling_prefix_witness :
  (Z.to_nat 4 < 5)%nat
  ∧ ∃ ps, partitions_fuel 5 4 (Some 2) [9] = Some ps
          ∧ ∀ t, t ∈ ps ↔ ∃ s, t = [9] ++ s ∧ sum s = 4 ∧ bounded_desc 2 s.
Proof.
  split; [vm_compute; lia|].
  apply (partitions_ceiling_prefix 5 4 2 [9]). vm_compute. lia.
Defined.

(** X3. The recursion really gets [n] calls deep: for [n >= 1], a bound
    of [n] nested frames (the first call and [n - 1] below it) is hit
    before anything is returned, because the tuple of [n] ones needs one
    frame per addend and one for the base case. *)
Theorem partitions_depth_reached (n : Z) :
  1 ≤ n → partitions_fuel (Z.to_nat n) n None [] = None.
Proof. intros Hn. apply partitions_fuel_short; simpl; lia. Qed.

Lemma partitions_depth_reached_witness :
  1 ≤ 3 ∧ partitions_fuel (Z.to_nat 3) 3 None [] = None.
Proof. split; [lia|]. apply (partitions_depth_reached 3). lia. Defined.

(** X4. For [n >= 1] the first tuple yielded is [(n,)] and the last one
    is the tuple of [n] ones. *)
Theorem partitions_first_last (n : Z) :
  1 ≤ n →
  head (partitions n) = Some [n]
  ∧ last (partitions n) = Some (replicate (Z.to_nat n) 1).
Proof.
  intros Hn. rewrite partitions_parts. split.
  - rewrite parts_unfold by lia. unfold py_range_down.
    destruct (Z.to_nat (Z.min n n)) as [|m] eqn:Hm; [lia|].
    change (range_desc (S m)) with (Z.of_nat (S m) :: range_desc m).
    replace (Z.of_nat (S m)) with n by lia.
    rewrite head_blocks; by rewrite Z.sub_diag, parts_0.
  - rewrite <- (Z2Nat.id n) at 1 by lia. apply last_parts_ones. lia.
Qed.

Lemma partitions_first_last_witness :
  1 ≤ 5
  ∧ head (partitions 5) = Some [5]
  ∧ last (partitions 5) = Some (replicate (Z.to_nat 5) 1).
Proof. split; [lia|]. apply (partitions_first_last 5). lia. Defined.

(** X5. A tuple yielded by [partitions(n)] has at most [n] addends, and
    none of its addends exceeds [n]. *)
Theorem partitions_bounds (n : Z) (P : list Z) :
  P ∈ partitions n →
  Z.of_nat (length P) ≤ n ∧ ∀ a, a ∈ P → a ≤ n.
Proof.
  intros (Hsum & _ & Hpos)%elem_of_partitions. subst n. split.
  - by apply sum_pos_length.
  - intros a. by apply sum_pos_le.
Qed.

Lemma partitions_bounds_witness :
  [2; 2; 1] ∈ partitions 5
  ∧ Z.of_nat (length [2; 2; 1]) ≤ 5 ∧ ∀ a, a ∈ [2; 2; 1] → a ≤ 5.
Proof.
  assert ([2; 2; 1] ∈ partitions 5) as Hin
    by (vm_compute; repeat first [by left | right]).
  split; [exact Hin|]. apply (partitions_bounds 5 [2; 2; 1]). exact Hin.
Defined.

(** ** The report *)

Lemma pretty_N_go_not_N x s : ¬ starts_N s → ¬ starts_N (pretty_N_go x s).
Proof.
  revert s. induction (N.lt_wf_0 x) as [x _ IH]; intros s Hs.
  assert (x = 0 ∨ 0 < x)%N as [->|Hx] by lia.
  - by rewrite pretty_N_go_0.
  - rewrite pretty_N_go_step by done. apply IH; [by apply N.div_lt|].
    simpl. unfold pretty_N_char. by repeat case_match.
Qed.

Lemma pretty_Z_not_N (z : Z) : ¬ starts_N (pretty z).
Proof.
  assert (∀ x : N, ¬ starts_N (pretty x)) as HN.
  { intros x. unfold pretty, pretty_N. case_decide; [by intros [=]|].
    apply pretty_N_go_not_N. tauto. }
  destruct z as [|q|q]; [by intros [=]|apply (HN (Npos q))|by intros [=]].
Qed.

Lemma join_plus_not_None p : join_plus p ≠ "None.".
Proof.
  intros Heq. assert (starts_N (join_plus p)) as HN by (by rewrite Heq).
  clear Heq. unfold join_plus in HN.
  destruct p as [|a p]; [done|].
  pose proof (pretty_Z_not_N a) as Ha.
  rewrite fmap_cons in HN. revert HN. generalize (pretty <$> p).
  intros [|t l] HN; simpl in HN; [exact (Ha HN)|].
  destruct (pretty a); simpl in HN; [discriminate HN|exact (Ha HN)].
Qed.

Lemma parts_k3_triple n : 3 ≤ n → [n - 2; 1; 1] ∈ parts_k3 n.
Proof.
  intros Hn. apply list_elem_of_filter. split; [done|].
  apply elem_of_partitions. split; [simpl; lia|].
  split; [simpl|repeat constructor]; lia.
Qed.

Lemma parts_k3_small n : n < 3 → parts_k3 n = [].
Proof.
  intros Hn. destruct (parts_k3 n) as [|s l] eqn:Hk3; [done|].
  assert (s ∈ parts_k3 n) as Hs by (rewrite Hk3; left).
  apply list_elem_of_filter in Hs as [Hlen (Hsum & _ & Hpos)%elem_of_partitions].
  apply sum_pos_length in Hpos. lia.
Qed.

Lemma None_line_iff (n : Z) :
  "None." ∈ print_partitions n ↔ n < 3.
Proof.
  unfold print_partitions. fold (parts_k3 n).
  rewrite !elem_of_app, !list_elem_of_singleton, !list_elem_of_fmap.
  split.
  - intros [Heq|[(s & Heq & _)|[Heq|[Heq|[Hk3|Heq]]]]]; try discriminate Heq.
    + by destruct (join_plus_not_None s).
    + destruct (decide (n < 3)) as [|Hn]; [done|].
      pose proof (parts_k3_triple n ltac:(lia)) as Hin.
      destruct (parts_k3 n) as [|t l]; [by apply elem_of_nil in Hin|].
      apply list_elem_of_fmap in Hk3 as (s & Heq & _).
      by destruct (join_plus_not_None s).
  - intros Hn. rewrite (parts_k3_small n Hn). do 4 right. left. by left.
Qed.

(** X6. [print_partitions(n)] prints the line [None.] exactly when
    [n < 3]: from 3 on, [n - 2, 1, 1] is always a partition into 3
    addends. *)
Theorem print_partitions_None (n : Z) :
  "None." ∈ print_partitions n ↔ n < 3.
Proof. apply None_line_iff. Qed.

(** X7. Whatever is entered, [main] never prints [None.]: it lets only
    3..7 through to [print_partitions], where that branch is not
    taken. *)
Theorem main_never_None (parsed : option Z) : "None." ∉ main parsed.
Proof.
  destruct parsed as [n|]; simpl.
  - case_decide as Hn.
    + rewrite None_line_iff. lia.
    + by intros [=]%list_elem_of_singleton.
  - by intros [=]%list_elem_of_singleton.
Qed.

(** * Properties of the input functions *)

Import Input.

Section dedup_facts.
Local Open Scope nat_scope.
Implicit Types (seen : gset string) (out seq : list string).

Lemma dedup_loop_app seen out seq :
  dedup_loop seen out seq = out ++ dedup_loop seen [] seq.
Proof.
  revert seen out. induction seq as [|x seq IH]; intros seen out; simpl.
  - by rewrite app_nil_r.
  - case_decide; [|done].
    rewrite IH, (IH _ ([] ++ [x])). by rewrite <- app_assoc.
Qed.

Lemma dedup_loop_cons seen x seq :
  dedup_loop seen [] (x :: seq)
  = if decide (x ∉ seen) then x :: dedup_loop ({[x]} ∪ seen) [] seq
    else dedup_loop seen [] seq.
Proof. simpl. case_decide; [|done]. by rewrite dedup_loop_app. Qed.

Lemma elem_of_dedup_loop seen seq x :
  x ∈ dedup_loop seen [] seq ↔ x ∈ seq ∧ x ∉ seen.
Proof.
  revert seen. induction seq as [|y seq IH]; intros seen.
  - simpl. rewrite elem_of_nil. tauto.
  - rewrite dedup_loop_cons. case_decide as Hy.
    + rewrite !elem_of_cons, IH. destruct (decide (x = y)) as [->|Hxy].
      * tauto.
      * rewrite not_elem_of_union, not_elem_of_singleton. tauto.
    + rewrite elem_of_cons, IH.
      split; [tauto|]. intros [[->|Hx] Hseen]; [done|tauto].
Qed.

Lemma NoDup_dedup_loop seen seq : NoDup (dedup_loop seen [] seq).
Proof.
  revert seen. induction seq as [|y seq IH]; intros seen.
  - constructor.
  - rewrite dedup_loop_cons. case_decide; [|done].
    constructor; [|done]. rewrite elem_of_dedup_loop.
    rewrite not_elem_of_union, not_elem_of_singleton. tauto.
Qed.

Lemma dedup_loop_filter seen x seq :
  dedup_loop ({[x]} ∪ seen) [] seq
  = dedup_loop seen [] (filter (λ y, y ≠ x) seq).
Proof.
  revert seen. induction seq as [|y seq IH]; intros seen; [done|].
  rewrite dedup_loop_cons. destruct (decide (y = x)) as [->|Hyx].
  - rewrite filter_cons_False by (intros ?; done).
    rewrite decide_False; [apply IH|].
    intros Hn. apply Hn, elem_of_union. left. by apply elem_of_singleton.
  - rewrite filter_cons_True by done. rewrite dedup_loop_cons.
    destruct (decide (y ∈ seen)) as [Hy|Hy].
    + rewrite (decide_False (P := y ∉ seen)) by tauto.
      rewrite decide_False; [apply IH|].
      rewrite not_elem_of_union. tauto.
    + rewrite (decide_True (P := y ∉ seen)) by done.
      rewrite decide_True
        by (rewrite not_elem_of_union, not_elem_of_singleton; tauto).
      f_equal.
      replace ({[y]} ∪ ({[x]} ∪ seen)) with ({[x]} ∪ ({[y]} ∪ seen));
        [apply IH|].
      apply set_eq. intros z. rewrite !elem_of_union. tauto.
Qed.

Lemma dedup_loop_sublist seen seq : dedup_loop seen [] seq `sublist_of` seq.
Proof.
  revert seen. induction seq as [|y seq IH]; intros seen; [done|].
  rewrite dedup_loop_cons. case_decide.
  - by apply sublist_skip.
  - by apply sublist_cons.
Qed.

Lemma dedup_loop_NoDup seen seq :
  NoDup seq → (∀ x, x ∈ seq → x ∉ seen) → dedup_loop seen [] seq = seq.
Proof.
  revert seen. induction seq as [|y seq IH]; intros seen Hnd Hseen; [done|].
  apply NoDup_cons in Hnd as [Hy Hnd].
  rewrite dedup_loop_cons, decide_True by (apply Hseen; left).
  f_equal. apply IH; [done|]. intros x Hx.
  pose proof (Hseen x ltac:(by right)).
  rewrite not_elem_of_union, not_elem_of_singleton. split; [|done].
  intros ->. done.
Qed.

(** X8. [dedup_preserve_order] returns a list without repetition that
    has exactly the elements of its argument. *)
Theorem dedup_preserve_order_set (seq : list string) :
  NoDup (dedup_preserve_order seq)
  ∧ ∀ x, x ∈ dedup_preserve_order seq ↔ x ∈ seq.
Proof.
  split; [apply NoDup_dedup_loop|].
  intros x. unfold dedup_preserve_order. rewrite elem_of_dedup_loop.
  pose proof (not_elem_of_empty (C := gset string) x). tauto.
Qed.

(** X9. [dedup_preserve_order] keeps the first occurrence of every
    element, in the order of the argument: the head stays in front and
    its later copies are dropped from the rest. *)
Theorem dedup_preserve_order_first (x : string) (seq : list string) :
  dedup_preserve_order (x :: seq)
  = x :: dedup_preserve_order (filter (λ y, y ≠ x) seq)
  ∧ dedup_preserve_order (x :: seq) `sublist_of` x :: seq.
Proof.
  unfold dedup_preserve_order. split; [|apply dedup_loop_sublist].
  rewrite dedup_loop_cons, decide_True by set_solver.
  f_equal. apply dedup_loop_filter.
Qed.

(** X10. A list without repetition is returned unchanged, so applying
    [dedup_preserve_order] twice is the same as applying it once. *)
Theorem dedup_preserve_order_idem (seq : list string) :
  (NoDup seq → dedup_preserve_order seq = seq)
  ∧ dedup_preserve_order (dedup_preserve_order seq) = dedup_preserve_order seq.
Proof.
  assert (∀ l, NoDup l → dedup_preserve_order l = l) as Hfix.
  { intros l Hl. apply dedup_loop_NoDup; [done|]. set_solver. }
  split; [apply Hfix|]. apply Hfix, NoDup_dedup_loop.
Qed.

Lemma dedup_preserve_order_idem_witness :
  NoDup ["b"; "a"]%string
  ∧ dedup_preserve_order ["b"; "a"]%string = ["b"; "a"]%string.
Proof.
  assert (NoDup ["b"; "a"]%string) as Hnd
    by (apply (bool_decide_unpack _); vm_compute; exact I).
  split; [exact Hnd|].
  destruct (dedup_preserve_order_idem ["b"; "a"]%string) as [Hfix _].
  exact (Hfix Hnd).
Defined.
End dedup_facts.

Section split_facts.
Local Open Scope nat_scope.
Implicit Types (P Q : ascii → bool) (s t : string) (c : ascii).

Lemma split_on_ext P Q s : (∀ c, P c = Q c) → split_on P s = split_on Q s.
Proof.
  intros HPQ. induction s as [|c s IH]; simpl; [done|].
  rewrite HPQ, IH. by destruct s; simpl; rewrite ?HPQ.
Qed.

Lemma split_on_skip P t s :
  all_chars P t = true → split_on P (t +:+ s) = split_on P s.
Proof.
  induction t as [|c t IH]; [done|].
  change (String c t +:+ s) with (String c (t +:+ s)). simpl.
  intros [Hc Ht]%andb_true_iff. rewrite Hc. by apply IH.
Qed.

Lemma split_on_word P t s :
  t ≠ EmptyString → all_chars (λ c, negb (P c)) t = true →
  word_ends P s = true →
  split_on P (t +:+ s) = t :: split_on P s.
Proof.
  intros Ht Hall Hs. induction t as [|c t IH]; [done|].
  change (String c t +:+ s) with (String c (t +:+ s)).
  cbn [split_on all_chars] in *.
  apply andb_true_iff in Hall as [Hc%negb_true_iff Hall]. rewrite Hc.
  destruct t as [|c' t].
  - change (EmptyString +:+ s) with s. by rewrite Hs.
  - cbn [all_chars] in Hall. apply andb_true_iff in Hall as Hall'.
    destruct Hall' as [Hc'%negb_true_iff _].
    change (word_ends P (String c' t +:+ s)) with (P c'). rewrite Hc'.
    by rewrite IH.
Qed.

Lemma split_on_tokens P s :
  Forall (λ t, t ≠ EmptyString ∧ all_chars (λ c, negb (P c)) t = true)
         (split_on P s).
Proof.
  induction s as [|c s IH]; simpl; [constructor|].
  destruct (P c) eqn:Hc; [done|].
  destruct (word_ends P s).
  - constructor; [|done]. simpl. by rewrite Hc.
  - destruct (split_on P s) as [|w ws].
    + constructor; [|done]. simpl. by rewrite Hc.
    + apply Forall_cons in IH as [[Hw Hall] IH].
      constructor; [|done]. simpl. by rewrite Hc, Hall.
Qed.

Lemma split_on_replace P old new s :
  P new = true →
  split_on P (replace_char old new s)
  = split_on (λ c, P c || bool_decide (c = old)) s.
Proof.
  intros Hnew. induction s as [|c s IH]; simpl; [done|].
  assert (∀ c, P (if decide (c = old) then new else c)
               = P c || bool_decide (c = old)) as Hp.
  { intros c'. case_decide as Hc'.
    - by rewrite Hnew, bool_decide_true, orb_true_r.
    - by rewrite bool_decide_false, orb_false_r. }
  rewrite Hp, IH.
  destruct (P c || bool_decide (c = old)) eqn:Hc; [done|].
  apply orb_false_iff in Hc as [_ Hc%bool_decide_eq_false].
  rewrite decide_False by done.
  by destruct s; simpl; rewrite ?Hp.
Qed.

Lemma split_on_lstrip P s :
  (∀ c, is_space c = true → P c = true) →
  split_on P (lstrip s) = split_on P s.
Proof.
  intros HP. induction s as [|c s IH]; simpl; [done|].
  destruct (is_space c) eqn:Hc; [|done]. by rewrite (HP c Hc).
Qed.

Lemma rstrip_empty s : rstrip s = EmptyString → all_chars is_space s = true.
Proof.
  induction s as [|c s IH]; simpl; [done|].
  destruct (rstrip s); [|done].
  destruct (is_space c); [|done]. intros _. by rewrite IH.
Qed.

Lemma rstrip_head s d r : rstrip s = String d r → ∃ t, s = String d t.
Proof.
  destruct s as [|c s]; simpl; [done|].
  destruct (rstrip s); [destruct (is_space c)|]; intros [= <- _]; eauto.
Qed.

Lemma all_chars_impl P Q s :
  (∀ c, P c = true → Q c = true) → all_chars P s = true → all_chars Q s = true.
Proof.
  intros HPQ. induction s as [|c s IH]; simpl; [done|].
  intros [Hc Hs]%andb_true_iff. by rewrite (HPQ c Hc), IH.
Qed.

Lemma split_on_all P s : all_chars P s = true → split_on P s = [].
Proof.
  induction s as [|c s IH]; simpl; [done|].
  intros [Hc Hs]%andb_true_iff. rewrite Hc. by apply IH.
Qed.

Lemma split_on_rstrip P s :
  (∀ c, is_space c = true → P c = true) →
  split_on P (rstrip s) = split_on P s.
Proof.
  intros HP. induction s as [|c s IH]; [done|].
  simpl rstrip. destruct (rstrip s) as [|d r] eqn:Hr.
  - apply rstrip_empty in Hr.
    pose proof (all_chars_impl _ _ _ HP Hr) as HrP.
    assert (word_ends P s = true) as Hw.
    { destruct s as [|c' s']; [done|]. simpl in *.
      by apply andb_true_iff in HrP as [-> _]. }
    simpl. rewrite (split_on_all P s HrP), Hw.
    destruct (is_space c) eqn:Hc.
    + by rewrite (HP c Hc).
    + simpl. by destruct (P c).
  - destruct (rstrip_head _ _ _ Hr) as [t ->].
    change (split_on P (String c (String d r)))
      with (if P c then split_on P (String d r)
            else if P d then String c EmptyString :: split_on P (String d r)
            else match split_on P (String d r) with
                 | w :: ws => String c w :: ws
                 | [] => [String c EmptyString]
                 end).
    change (split_on P (String c (String d t)))
      with (if P c then split_on P (String d t)
            else if P d then String c EmptyString :: split_on P (String d t)
            else match split_on P (String d t) with
                 | w :: ws => String c w :: ws
                 | [] => [String c EmptyString]
                 end).
    by rewrite IH.
Qed.

(** The tokens of [parse_pair]: the line split at its separators. *)
Lemma split_normalize line :
  py_split (normalize line) = split_on is_sep line.
Proof.
  unfold py_split, normalize.
  rewrite !split_on_replace by (by rewrite ?orb_true_l).
  unfold strip.
  assert (∀ c, is_space c = true →
    is_space c || bool_decide (c = ",") || bool_decide (c = "]")
    || bool_decide (c = "[") || bool_decide (c = ")")
    || bool_decide (c = "(") = true)%char as Hsp by (by intros c ->).
  rewrite split_on_rstrip, split_on_lstrip by done.
  apply split_on_ext. intros c. unfold is_sep.
  destruct (is_space c); [done|]. simpl.
  apply eq_true_iff_eq.
  rewrite !orb_true_iff, !bool_decide_eq_true, !elem_of_cons, elem_of_nil.
  tauto.
Qed.

Lemma parse_pair_tokens line :
  parse_pair line
  = match split_on is_sep line with
    | t0 :: t1 :: _ => Some (t0, t1)
    | _ => None
    end.
Proof.
  unfold parse_pair. rewrite split_normalize.
  pose proof (split_on_tokens is_sep line) as Htok.
  replace (filter (λ t, t ≠ EmptyString) (split_on is_sep line))
    with (split_on is_sep line); [done|].
  induction Htok as [|t l [Ht _] _ IH]; [done|].
  by rewrite filter_cons_True, <- IH.
Qed.
Lemma is_token_spec t :
  is_token t = true ↔
  t ≠ EmptyString ∧ all_chars (λ c, negb (is_sep c)) t = true.
Proof.
  unfold is_token. rewrite andb_true_iff, negb_true_iff, bool_decide_eq_false.
  done.
Qed.

Lemma word_ends_app P t s :
  t ≠ EmptyString → all_chars P t = true → word_ends P (t +:+ s) = true.
Proof.
  destruct t as [|c t]; [done|]. intros _ [Hc _]%andb_true_iff. exact Hc.
Qed.

(** X11. [parse_pair] reads the two tokens of every documented format:
    for tokens [x] and [y] free of white space, brackets and commas, any
    line made of separators, [x], at least one separator, [y], and then
    nothing or a separator followed by anything, gives [(x, y)].  This
    covers [a b], [a,b], [(a,b)] and [[a,b]], and shows that whatever
    follows the second token is ignored. *)
Theorem parse_pair_formats (pre x mid y rest : string) :
  all_chars is_sep pre = true → is_token x = true →
  all_chars is_sep mid = true → mid ≠ EmptyString →
  is_token y = true → sep_next rest = true →
  parse_pair (pre +:+ x +:+ mid +:+ y +:+ rest) = Some (x, y).
Proof.
  intros Hpre [Hx Hxc]%is_token_spec Hmid Hmid' [Hy Hyc]%is_token_spec Hrest.
  rewrite parse_pair_tokens, split_on_skip by done.
  rewrite split_on_word by (done || by apply word_ends_app).
  rewrite split_on_skip by done.
  by rewrite split_on_word.
Qed.

Lemma parse_pair_formats_witness :
  all_chars is_sep "(" = true ∧ is_token "a" = true
  ∧ all_chars is_sep ", " = true ∧ ", "%string ≠ EmptyString
  ∧ is_token "b" = true ∧ sep_next ") # note" = true
  ∧ parse_pair ("(" +:+ "a" +:+ ", " +:+ "b" +:+ ") # note") = Some ("a", "b")%string.
Proof.
  split_and!; [reflexivity|reflexivity|reflexivity|discriminate
              |reflexivity|reflexivity|].
  apply (parse_pair_formats "(" "a" ", " "b" ") # note");
    (reflexivity || discriminate).
Defined.

(** X12. [parse_pair] raises [ValueError] on a line with fewer than two
    tokens: a line of separators only (the empty line among them), and a
    line with a single token. *)
Theorem parse_pair_too_short (pre x post : string) :
  all_chars is_sep pre = true → is_token x = true →
  all_chars is_sep post = true →
  parse_pair pre = None ∧ parse_pair (pre +:+ x +:+ post) = None.
Proof.
  intros Hpre [Hx Hxc]%is_token_spec Hpost. split.
  - by rewrite parse_pair_tokens, split_on_all.
  - rewrite parse_pair_tokens, split_on_skip by done.
    rewrite split_on_word; [by rewrite split_on_all|done..|].
    destruct post as [|c post]; [done|].
    apply andb_true_iff in Hpost as [Hc _]. exact Hc.
Qed.

Lemma parse_pair_too_short_witness :
  all_chars is_sep " [" = true ∧ is_token "a" = true
  ∧ all_chars is_sep "] " = true
  ∧ parse_pair " [" = None ∧ parse_pair (" [" +:+ "a" +:+ "] ") = None.
Proof.
  split_and!; [reflexivity..| |];
    apply (parse_pair_too_short " [" "a" "] "); reflexivity.
Defined.

(** X13. The two labels returned by [parse_pair] are tokens: neither is
    empty, and neither contains white space, a bracket or a comma. *)
Theorem parse_pair_tokens_clean (line x y : string) :
  parse_pair line = Some (x, y) → is_token x = true ∧ is_token y = true.
Proof.
  rewrite parse_pair_tokens.
  pose proof (split_on_tokens is_sep line) as Htok.
  destruct (split_on is_sep line) as [|t0 [|t1 l]]; try done.
  intros [= <- <-].
  apply Forall_cons in Htok as [H0 [H1 _]%Forall_cons].
  by rewrite !is_token_spec.
Qed.

Lemma parse_pair_tokens_clean_witness :
  parse_pair "[u1, v2]" = Some ("u1", "v2")%string
  ∧ is_token "u1" = true ∧ is_token "v2" = true.
Proof.
  split; [reflexivity|].
  apply (parse_pair_tokens_clean "[u1, v2]" "u1" "v2"). reflexivity.
Defined.
End split_facts.

(** * Further properties of the relation matrices *)

Section matrix_more.
Local Open Scope nat_scope.
Implicit Types (A : list string) (pairs seen : list (string * string)).
Implicit Types (M : list (list Z)) (idx : gmap string nat).

Lemma index_of_last A a i k :
  index_of A !! a = Some i → i < k → A !! k ≠ Some a.
Proof.
  revert i k. induction A as [|b A IH] using rev_ind; intros i k; [done|].
  rewrite index_of_snoc, lookup_insert. case_decide as Hab.
  - intros [= <-] Hk. rewrite lookup_ge_None_2; [done|].
    rewrite length_app. simpl. lia.
  - intros Hi Hk. rewrite lookup_app_Some. intros [Hl|[Hlen Hr]].
    + by eapply IH.
    + destruct (k - length A); [|done]. simpl in Hr. congruence.
Qed.

Lemma index_of_elem A a : a ∈ A → is_Some (index_of A !! a).
Proof.
  induction A as [|b A IH] using rev_ind; [by intros ?%elem_of_nil|].
  rewrite index_of_snoc, elem_of_app, list_elem_of_singleton, lookup_insert.
  case_decide; [by eexists|]. intros [Ha| ->]; [by apply IH|done].
Qed.

Lemma index_of_inj A a b i :
  index_of A !! a = Some i → index_of A !! b = Some i → a = b.
Proof. intros Ha%index_of_lookup_Some Hb%index_of_lookup_Some. congruence. Qed.

Lemma represents_unique idx n M M' seen seen' :
  represents idx n M seen → represents idx n M' seen' →
  (∀ xy, xy ∈ seen ↔ xy ∈ seen') → M = M'.
Proof.
  intros [Hsq Hent] [Hsq' Hent'] Hsame.
  apply (matrix_ext n); [done..|]. intros i j Hi Hj.
  destruct (Hent i j Hi Hj) as [H01 Hiff].
  destruct (Hent' i j Hi Hj) as [H01' Hiff'].
  assert (entry M i j = Some 1%Z ↔ entry M' i j = Some 1%Z) as Heq.
  { rewrite Hiff, Hiff'. by setoid_rewrite Hsame. }
  destruct H01 as [H1|H0], H01' as [H1'|H0']; try congruence.
  - apply Heq in H1. congruence.
  - apply Heq in H1'. congruence.
Qed.

Lemma mark_all_filter A M pairs :
  mark_all (index_of A) M (filter (λ xy, xy.1 ∈ A ∧ xy.2 ∈ A) pairs)
  = mark_all (index_of A) M pairs.
Proof.
  revert M. induction pairs as [|[x y] pairs IH]; intros M; [done|].
  destruct (decide (x ∈ A ∧ y ∈ A)) as [Hin|Hout].
  - rewrite filter_cons_True by done. simpl.
    destruct (mark _ M (x, y)); simpl; [apply IH|done].
  - rewrite filter_cons_False by done. simpl.
    rewrite mark_outside; [simpl; apply IH|].
    apply not_and_l in Hout as [?|?]; [left|right]; by apply index_of_not_elem.
Qed.

(** X14. The matrix depends on the pairs as a set only: two lists with
    the same pairs, in any order and however often repeated, give the
    same matrix. *)
Theorem build_matrix_same_pairs A pairs pairs' :
  (∀ xy, xy ∈ pairs ↔ xy ∈ pairs') →
  build_matrix A pairs = build_matrix A pairs'.
Proof.
  intros Hsame.
  destruct (build_matrix_represents A pairs) as (M & -> & HM).
  destruct (build_matrix_represents A pairs') as (M' & -> & HM').
  f_equal. by eapply represents_unique.
Qed.

Lemma build_matrix_same_pairs_witness :
  (∀ xy, xy ∈ [("a", "b"); ("b", "a"); ("a", "b")]%string
         ↔ xy ∈ [("b", "a"); ("a", "b")]%string)
  ∧ build_matrix ["a"; "b"]%string [("a", "b"); ("b", "a"); ("a", "b")]%string
    = build_matrix ["a"; "b"]%string [("b", "a"); ("a", "b")]%string.
Proof.
  assert (∀ xy, xy ∈ [("a", "b"); ("b", "a"); ("a", "b")]%string
                ↔ xy ∈ [("b", "a"); ("a", "b")]%string) as Hsame.
  { intros xy. rewrite !elem_of_cons, !elem_of_nil. tauto. }
  split; [exact Hsame|].
  apply (build_matrix_same_pairs ["a"; "b"]%string _ _ Hsame).
Defined.

(** X15. Dropping the pairs that have a label outside of [A] before
    calling [build_matrix], as [on_compute] does, does not change the
    matrix. *)
Theorem build_matrix_filter A pairs :
  build_matrix A (filter (λ xy, xy.1 ∈ A ∧ xy.2 ∈ A) pairs)
  = build_matrix A pairs.
Proof. unfold build_matrix. apply mark_all_filter. Qed.

(** X16. When a label occurs more than once in [A], only its last
    position is used: the row and the column of every earlier position
    hold zeros only. *)
Theorem repeated_label_zeros A pairs M a i k :
  build_matrix A pairs = Some M →
  A !! i = Some a → A !! k = Some a → i < k →
  ∀ j, j < length A → entry M i j = Some 0%Z ∧ entry M j i = Some 0%Z.
Proof.
  intros HM Hi Hk Hik j Hj.
  destruct (build_matrix_represents A pairs) as (M' & HM' & _ & Hent).
  rewrite HM in HM'. injection HM' as <-.
  apply lookup_lt_Some in Hi as Hi'.
  assert (∀ x, index_of A !! x ≠ Some i) as Hnot.
  { intros x Hx. apply index_of_lookup_Some in Hx as Hx'.
    assert (x = a) as -> by congruence.
    exact (index_of_last A a i k Hx Hik Hk). }
  split.
  - destruct (Hent i j Hi' Hj) as [[H1|H0] Hiff]; [|done].
    apply Hiff in H1 as (x & y & _ & Hx & _). by destruct (Hnot x).
  - destruct (Hent j i Hj Hi') as [[H1|H0] Hiff]; [|done].
    apply Hiff in H1 as (x & y & _ & _ & Hy). by destruct (Hnot y).
Qed.

Lemma repeated_label_zeros_witness :
  build_matrix ["a"; "b"; "a"]%string [("a", "b"); ("b", "a")]%string
  = Some [[0; 0; 0]; [0; 0; 1]; [0; 1; 0]]%Z
  ∧ ["a"; "b"; "a"]%string !! 0 = Some "a"%string
  ∧ ["a"; "b"; "a"]%string !! 2 = Some "a"%string
  ∧ 0 < 2
  ∧ ∀ j, j < length ["a"; "b"; "a"]%string →
      entry [[0; 0; 0]; [0; 0; 1]; [0; 1; 0]]%Z 0 j = Some 0%Z
      ∧ entry [[0; 0; 0]; [0; 0; 1]; [0; 1; 0]]%Z j 0 = Some 0%Z.
Proof.
  split_and!; [reflexivity|reflexivity|reflexivity|lia|].
  apply (repeated_label_zeros ["a"; "b"; "a"]%string
           [("a", "b"); ("b", "a")]%string _ "a"%string 0 2);
    [reflexivity|reflexivity|reflexivity|lia].
Defined.
(** ** The figure [Pairs used] *)

Lemma sum_insert (l : list Z) j v w :
  l !! j = Some v →
  foldr Z.add 0%Z (<[j := w]> l) = (foldr Z.add 0 l - v + w)%Z.
Proof.
  revert j. induction l as [|u l IH]; intros j; [done|].
  destruct j as [|j]; simpl.
  - intros [= ->]. lia.
  - intros Hj. rewrite (IH j Hj). lia.
Qed.

Lemma total_set_entry M M' i j v w :
  set_entry M i j w = Some M' → entry M i j = Some v →
  total M' = (total M - v + w)%Z.
Proof.
  unfold set_entry, set_item, entry.
  destruct (M !! i) as [row|] eqn:Hrow; simpl; [|done].
  case_decide as Hj; simpl; [|done]. intros [= <-] Hv.
  unfold total. rewrite list_fmap_insert.
  rewrite (sum_insert _ i (foldr Z.add 0%Z row)) by (by rewrite list_lookup_fmap, Hrow).
  rewrite (sum_insert row j v w Hv). lia.
Qed.

Lemma mark_total A n M M' seen x y :
  represents (index_of A) n M seen → length A = n →
  total M
  = Z.of_nat (size (list_to_set (C := gset (string * string))
                      (filter (λ xy, xy.1 ∈ A ∧ xy.2 ∈ A) seen))) →
  mark (index_of A) M (x, y) = Some M' →
  total M'
  = Z.of_nat (size (list_to_set (C := gset (string * string))
                      (filter (λ xy, xy.1 ∈ A ∧ xy.2 ∈ A) (seen ++ [(x, y)])))).
Proof.
  intros [Hsq Hent] Hn Htot. unfold mark. simpl. rewrite filter_app.
  destruct (index_of A !! x) as [i|] eqn:Hx;
    [destruct (index_of A !! y) as [j|] eqn:Hy|].
  - assert (x ∈ A ∧ y ∈ A) as Hin.
    { split; eapply list_elem_of_lookup_2, index_of_lookup_Some; eauto. }
    assert (i < n ∧ j < n) as [Hi Hj].
    { subst n. split; eapply index_of_lt; eauto. }
    rewrite (filter_cons_True _ _ []) by done.
    rewrite filter_nil, list_to_set_app_L, list_to_set_singleton.
    destruct (Hent i j Hi Hj) as [[H1|H0] Hiff]; intros Hset.
    + rewrite (total_set_entry _ _ _ _ _ _ Hset H1), Htot.
      apply Hiff in H1 as (x' & y' & Hseen & Hx' & Hy').
      assert (x' = x) as -> by (by eapply index_of_inj).
      assert (y' = y) as -> by (by eapply index_of_inj).
      replace (_ ∪ {[(x, y)]}) with
        (list_to_set (C := gset (string * string))
           (filter (λ xy, xy.1 ∈ A ∧ xy.2 ∈ A) seen)); [lia|].
      apply set_eq. intros xy.
      rewrite elem_of_union, elem_of_singleton, elem_of_list_to_set,
        list_elem_of_filter.
      split; [tauto|]. intros [?| ->]; [done|]. done.
    + rewrite (total_set_entry _ _ _ _ _ _ Hset H0), Htot.
      rewrite size_union, size_singleton; [lia|].
      apply disjoint_singleton_r.
      rewrite elem_of_list_to_set, list_elem_of_filter. intros [_ Hseen].
      assert (entry M i j = Some 1%Z) as H1 by (apply Hiff; eauto).
      congruence.
  - intros [= <-]. rewrite filter_cons_False, filter_nil, app_nil_r; [done|].
    simpl. intros [_ Hy'%index_of_elem]. rewrite Hy in Hy'. by destruct Hy'.
  - intros [= <-]. rewrite filter_cons_False, filter_nil, app_nil_r; [done|].
    simpl. intros [Hx'%index_of_elem _]. rewrite Hx in Hx'. by destruct Hx'.
Qed.

Lemma mark_all_total A n M M' seen pairs :
  represents (index_of A) n M seen → length A = n →
  total M
  = Z.of_nat (size (list_to_set (C := gset (string * string))
                      (filter (λ xy, xy.1 ∈ A ∧ xy.2 ∈ A) seen))) →
  mark_all (index_of A) M pairs = Some M' →
  total M'
  = Z.of_nat (size (list_to_set (C := gset (string * string))
                      (filter (λ xy, xy.1 ∈ A ∧ xy.2 ∈ A) (seen ++ pairs)))).
Proof.
  intros HM Hn. revert M seen HM.
  induction pairs as [|[x y] pairs IH]; intros M seen HM Htot; simpl.
  - intros [= <-]. by rewrite app_nil_r.
  - destruct (mark (index_of A) M (x, y)) as [M1|] eqn:Hmark; simpl; [|done].
    intros HM'. rewrite cons_middle, app_assoc.
    apply (IH M1); [| |done].
    + destruct (mark_represents (index_of A) n M seen (x, y)) as (M2 & HM2 & Hrep);
        [intros a i Ha; subst n; by eapply index_of_lt|done|].
      rewrite Hmark in HM2. by injection HM2 as ->.
    + by eapply mark_total.
Qed.

Lemma total_build_matrix A pairs M :
  build_matrix A pairs = Some M →
  total M
  = Z.of_nat (size (list_to_set (C := gset (string * string))
                      (filter (λ xy, xy.1 ∈ A ∧ xy.2 ∈ A) pairs))).
Proof.
  intros HM.
  apply (mark_all_total A (length A) (zeros (length A)) M [] pairs);
    [apply represents_zeros|done| |done].
  rewrite filter_nil. simpl. unfold total, zeros.
  assert (∀ k, foldr Z.add 0%Z (replicate k 0%Z) = 0%Z) as Hzero.
  { intros k. induction k as [|k IH]; simpl; [done|]. by rewrite IH. }
  by rewrite fmap_replicate, !Hzero.
Qed.

(** X17. The figure [Pairs used], the sum of all entries of the matrix of
    [build_matrix], is the number of distinct pairs that have both labels
    in [A]: a pair entered several times counts once, and a pair with a
    label outside of [A] does not count. *)
Theorem pairs_used_distinct A pairs M :
  build_matrix A pairs = Some M →
  total M
  = Z.of_nat (size (list_to_set (C := gset (string * string))
                      (filter (λ xy, xy.1 ∈ A ∧ xy.2 ∈ A) pairs))).
Proof. apply total_build_matrix. Qed.

Lemma pairs_used_distinct_witness :
  build_matrix ["a"; "b"]%string [("a", "b"); ("a", "z"); ("a", "b")]%string
  = Some [[0; 1]; [0; 0]]%Z
  ∧ total [[0; 1]; [0; 0]]%Z
    = Z.of_nat (size (list_to_set (C := gset (string * string))
        (filter (λ xy, xy.1 ∈ ["a"; "b"]%string ∧ xy.2 ∈ ["a"; "b"]%string)
                [("a", "b"); ("a", "z"); ("a", "b")]%string))).
Proof.
  split; [reflexivity|].
  apply (pairs_used_distinct ["a"; "b"]%string
           [("a", "b"); ("a", "z"); ("a", "b")]%string). reflexivity.
Defined.
(** ** Transposition of any list of rows *)

Lemma zip_star_ragged M :
  M ≠ [] →
  Forall (λ col, length col = length M) (zip_star M)
  ∧ (∀ row, row ∈ M → length (zip_star M) ≤ length row)
  ∧ (∃ row, row ∈ M ∧ length row = length (zip_star M))
  ∧ ∀ i j, j < length (zip_star M) → entry (zip_star M) j i = entry M i j.
Proof.
  induction M as [|row M IH]; [done|]. intros _. destruct M as [|row' M].
  - simpl. rewrite length_fmap. split_and!.
    + apply Forall_fmap, Forall_true. done.
    + by intros r ->%list_elem_of_singleton.
    + exists row. split; [by left|done].
    + intros i j _. unfold entry. rewrite list_lookup_fmap.
      destruct i as [|i]; simpl; by destruct (row !! j).
  - destruct IH as (Hcols & Hle & (r & Hr & Hlen) & Hent); [done|].
    change (zip_star (row :: row' :: M))
      with (zip_with cons row (zip_star (row' :: M))).
    set (Z' := zip_star (row' :: M)) in *.
    rewrite length_zip_with. split_and!.
    + apply Forall_forall. intros col Hcol.
      apply elem_of_zip_with in Hcol as (v & c & -> & _ & Hc).
      rewrite Forall_forall in Hcols. simpl. f_equal. by apply Hcols.
    + intros r' [->|Hr']%elem_of_cons; [lia|].
      specialize (Hle r' Hr'). lia.
    + destruct (decide (length row ≤ length Z')).
      * exists row. split; [by left|lia].
      * exists r. split; [by right|lia].
    + intros i j Hj. unfold entry at 1. rewrite lookup_zip_with.
      destruct (lookup_lt_is_Some_2 row j) as [v Hv]; [lia|].
      destruct (lookup_lt_is_Some_2 Z' j) as [c Hc]; [lia|].
      rewrite Hv, Hc. simpl. destruct i as [|i]; simpl.
      * unfold entry. simpl. done.
      * change (entry (row :: row' :: M) (S i) j)
          with (entry (row' :: M) i j).
        rewrite <- (Hent i j) by lia. unfold entry. by rewrite Hc.
Qed.

Lemma rect_ext r m M M' :
  length M = r → Forall (λ row, length row = m) M →
  length M' = r → Forall (λ row, length row = m) M' →
  (∀ i j, entry M i j = entry M' i j) → M = M'.
Proof.
  intros Hr Hm Hr' Hm' Hent. apply list_eq. intros i.
  destruct (decide (i < r)) as [Hi|Hi].
  - destruct (lookup_lt_is_Some_2 M i) as [row Hrow]; [lia|].
    destruct (lookup_lt_is_Some_2 M' i) as [row' Hrow']; [lia|].
    rewrite Hrow, Hrow'. f_equal. apply list_eq. intros j.
    specialize (Hent i j). unfold entry in Hent.
    by rewrite Hrow, Hrow' in Hent.
  - by rewrite !lookup_ge_None_2 by lia.
Qed.

(** X18. [transpose] accepts rows of unequal length and cuts them to
    the shortest: for a non-empty [M], the result has as many rows as the
    shortest row of [M] has items, each of its rows has [len(M)] items,
    and its item [j][i] is [M[i][j]]. *)
Theorem transpose_ragged M :
  M ≠ [] →
  (∀ row, row ∈ M → length (transpose M) ≤ length row)
  ∧ (∃ row, row ∈ M ∧ length row = length (transpose M))
  ∧ (∀ col, col ∈ transpose M → length col = length M)
  ∧ ∀ i j, j < length (transpose M) → entry (transpose M) j i = entry M i j.
Proof.
  intros HM. destruct (zip_star_ragged M HM) as (Hcols & Hle & Hex & Hent).
  destruct M as [|row M]; [done|]. unfold transpose.
  split_and!; [done..| |done]. by apply Forall_forall.
Qed.

Lemma transpose_ragged_witness :
  [[1; 2; 3]; [4; 5]]%Z ≠ []
  ∧ transpose [[1; 2; 3]; [4; 5]]%Z = [[1; 4]; [2; 5]]%Z
  ∧ ∀ i j, j < length (transpose [[1; 2; 3]; [4; 5]]%Z) →
      entry (transpose [[1; 2; 3]; [4; 5]]%Z) j i
      = entry [[1; 2; 3]; [4; 5]]%Z i j.
Proof.
  split; [discriminate|]. split; [reflexivity|].
  destruct (transpose_ragged [[1; 2; 3]; [4; 5]]%Z) as (_ & _ & _ & Hent);
    [discriminate|exact Hent].
Defined.

(** X19. On a matrix with at least one row and one column, all rows of
    the same length, transposing twice gives the matrix back.  A matrix
    with rows but no columns is transposed to the empty list, so its
    shape is lost. *)
Theorem transpose_involutive M m :
  M ≠ [] → Forall (λ row, length row = m) M →
  (0 < m → transpose (transpose M) = M)
  ∧ (m = 0 → transpose M = []).
Proof.
  intros HM Hrows.
  destruct (zip_star_spec M m HM Hrows) as (Hlen & Hcols & Hent).
  assert (transpose M = zip_star M) as HT by (by destruct M).
  rewrite HT. split.
  - intros Hm.
    assert (zip_star M ≠ []) as HT' by (intros Hnil; rewrite Hnil in Hlen; simpl in Hlen; lia).
    destruct (zip_star_spec (zip_star M) (length M) HT' Hcols)
      as (Hlen2 & Hcols2 & Hent2).
    assert (transpose (zip_star M) = zip_star (zip_star M)) as ->
      by (by destruct (zip_star M)).
    apply (rect_ext (length M) m); [done| |done..|].
    + by rewrite Hlen in Hcols2.
    + intros i j. by rewrite Hent2, Hent.
  - intros ->. by apply nil_length_inv.
Qed.

Lemma transpose_involutive_witness :
  [[1; 2; 3]; [4; 5; 6]]%Z ≠ []
  ∧ Forall (λ row, length row = 3) [[1; 2; 3]; [4; 5; 6]]%Z
  ∧ 0 < 3
  ∧ transpose (transpose [[1; 2; 3]; [4; 5; 6]]%Z) = [[1; 2; 3]; [4; 5; 6]]%Z.
Proof.
  assert (Forall (λ row, length row = 3) [[1; 2; 3]; [4; 5; 6]]%Z) as Hrows
    by (repeat constructor).
  split; [discriminate|]. split; [exact Hrows|]. split; [lia|].
  destruct (transpose_involutive [[1; 2; 3]; [4; 5; 6]]%Z 3) as [Hinv _];
    [discriminate|exact Hrows|]. apply Hinv. lia.
Defined.
End matrix_more.

(** * Properties of [parse_inputs] and [on_compute] *)

Section compute_facts.
Local Open Scope nat_scope.
Implicit Types (A : list string) (pairs : list (string * string)).
Implicit Types (raw : list string) (items : list (nat * string)).

Lemma parse_pair_blank line : strip line = EmptyString → parse_pair line = None.
Proof. intros Hl. unfold parse_pair, normalize. by rewrite Hl. Qed.

Lemma read_lines_go st items :
  foldl read_line st items
  = (st.1.1 ++ omap (λ it, parse_pair it.2) items,
     st.1.2 ++ labels_of (omap (λ it, parse_pair it.2) items),
     st.2 ++ filter bad_line items).
Proof.
  revert st. induction items as [|[ln line] items IH]; intros [[ps es] errs].
  - simpl. by rewrite !app_nil_r.
  - cbn [foldl]. rewrite IH.
    destruct (read_line (ps, es, errs) (ln, line)) as [[ps' es'] errs'] eqn:Hstep.
    unfold read_line in Hstep. cbn [fst snd omap list_omap] in *.
    case_decide as Hblank.
    + injection Hstep as <- <- <-.
      rewrite filter_cons_False by (by intros [? _]).
      by rewrite (parse_pair_blank line Hblank).
    + destruct (parse_pair line) as [[x y]|] eqn:Hp.
      * injection Hstep as <- <- <-.
        rewrite filter_cons_False by (intros [_ ?]; simpl in *; congruence).
        by rewrite <- !app_assoc.
      * injection Hstep as <- <- <-.
        rewrite filter_cons_True by done. by rewrite <- !app_assoc.
Qed.

Lemma omap_numbered (f : nat → string → nat * string) raw :
  (∀ i line, (f i line).2 = line) →
  omap (λ it, parse_pair it.2) (imap f raw) = omap parse_pair raw.
Proof.
  revert f. induction raw as [|line raw IH]; intros f Hf; [done|].
  cbn [imap omap list_omap]. rewrite Hf, (IH (f ∘ S)); [done|].
  intros i l. apply Hf.
Qed.

Lemma read_lines_eq raw :
  read_lines raw
  = (omap parse_pair raw, labels_of (omap parse_pair raw),
     filter bad_line (imap (λ i line, (S i, line)) raw)).
Proof.
  unfold read_lines. rewrite read_lines_go. cbn [fst snd].
  by rewrite omap_numbered.
Qed.

Lemma elem_of_labels_of pairs a :
  a ∈ labels_of pairs ↔ ∃ x y, (x, y) ∈ pairs ∧ (a = x ∨ a = y).
Proof.
  induction pairs as [|[x0 y0] pairs IH].
  - simpl. rewrite elem_of_nil. split; [done|].
    by intros (x & y & Hin%elem_of_nil & _).
  - change (labels_of ((x0, y0) :: pairs)) with (x0 :: y0 :: labels_of pairs).
    rewrite !elem_of_cons, IH. split.
    + intros [Ha|[Ha|(x & y & Hin & Ha)]].
      * exists x0, y0. rewrite elem_of_cons. auto.
      * exists x0, y0. rewrite elem_of_cons. auto.
      * exists x, y. rewrite elem_of_cons. auto.
    + intros (x & y & [[= -> ->]|Hin]%elem_of_cons & Ha); [tauto|].
      right. right. eauto.
Qed.

Lemma build_matrix_entry A pairs M i j x y :
  NoDup A → build_matrix A pairs = Some M →
  A !! i = Some x → A !! j = Some y →
  entry M i j = Some 1%Z ↔ (x, y) ∈ pairs.
Proof.
  intros HA HM Hx Hy.
  destruct (build_matrix_represents A pairs) as (M' & HM' & _ & Hent).
  rewrite HM in HM'. injection HM' as <-.
  apply lookup_lt_Some in Hx as Hi, Hy as Hj.
  destruct (Hent i j Hi Hj) as [_ ->]. split.
  - intros (x' & y' & Hin & Hx'%index_of_lookup_Some
            & Hy'%index_of_lookup_Some). congruence.
  - intros Hin. exists x, y. auto using index_of_lookup_NoDup.
Qed.
Lemma parse_inputs_eq e raw :
  (parse_inputs e raw).2
  = if decide (omap parse_pair raw = []) then None
    else Some (if decide (entry_labels e = [])
               then dedup_preserve_order (labels_of (omap parse_pair raw))
               else entry_labels e,
               omap parse_pair raw).
Proof. unfold parse_inputs. by rewrite read_lines_eq. Qed.

Lemma parse_inputs_Some e raw A pairs :
  (parse_inputs e raw).2 = Some (A, pairs) →
  pairs = omap parse_pair raw ∧ pairs ≠ [] ∧ NoDup A
  ∧ (entry_labels e = [] → A = dedup_preserve_order (labels_of pairs)).
Proof.
  rewrite parse_inputs_eq. case_decide as Hp; [done|]. intros [= <- <-].
  split_and!; [done..| |].
  - case_decide as HA; [apply NoDup_dedup_loop|].
    unfold entry_labels. case_decide; [constructor|apply NoDup_dedup_loop].
  - intros HA. by rewrite decide_True.
Qed.

Lemma on_compute_eq e raw A pairs :
  (parse_inputs e raw).2 = Some (A, pairs) →
  on_compute e raw
  = M ← build_matrix A pairs;
    Some (Display A
            (if decide (strip e = EmptyString) then []
             else filter (λ xy, xy.1 ∉ A ∨ xy.2 ∉ A) pairs)
            M (transpose M) (total M)).
Proof.
  intros Hp. unfold on_compute. rewrite Hp. simpl.
  case_decide; [done|]. unfold build_matrix. by rewrite mark_all_filter.
Qed.

(** X20. The loop of [parse_inputs] over the lines keeps, in the order of
    the lines, the pair of every line that [parse_pair] accepts; it
    collects the labels of these pairs; and it reports, under its number
    counted from 1, every line that is not blank and that [parse_pair]
    rejects.  Blank lines are passed over without a report. *)
Theorem read_lines_spec raw :
  (read_lines raw).1.1 = omap parse_pair raw
  ∧ (read_lines raw).1.2 = labels_of (omap parse_pair raw)
  ∧ ∀ ln line, (ln, line) ∈ (read_lines raw).2 ↔
      (0 < ln ∧ raw !! (ln - 1) = Some line)
      ∧ strip line ≠ EmptyString ∧ parse_pair line = None.
Proof.
  rewrite read_lines_eq. cbn [fst snd]. split_and!; [done..|].
  intros ln line. rewrite list_elem_of_filter, elem_of_lookup_imap.
  unfold bad_line. cbn [snd]. split.
  - intros [Hbad (i & l & [= -> ->] & Hi)]. split; [|done].
    split; [lia|]. by rewrite Nat.sub_succ, Nat.sub_0_r.
  - intros [[Hln Hl] Hbad]. split; [done|]. exists (ln - 1), line.
    split; [f_equal; lia|done].
Qed.

(** X21. [parse_inputs] raises [ValueError] exactly when no line gives a
    pair, and [on_compute] then stops; in every other case [on_compute]
    goes through to the display, so [build_matrix] never fails on the
    labels and pairs that [parse_inputs] returns. *)
Theorem on_compute_stops e raw :
  ((parse_inputs e raw).2 = None ↔ omap parse_pair raw = [])
  ∧ (on_compute e raw = None ↔ omap parse_pair raw = []).
Proof.
  assert ((parse_inputs e raw).2 = None ↔ omap parse_pair raw = []) as Hp.
  { rewrite parse_inputs_eq. by case_decide. }
  split; [done|]. rewrite <- Hp.
  destruct ((parse_inputs e raw).2) as [[A pairs]|] eqn:Hres.
  - rewrite (on_compute_eq e raw A pairs Hres).
    destruct (build_matrix_represents A pairs) as (M & -> & _). done.
  - unfold on_compute. by rewrite Hres.
Qed.

(** X22. The labels returned by [parse_inputs] never repeat, and the
    pairs are those of the accepted lines.  When the field for [A] is
    left blank, the labels are exactly the labels that occur in the
    pairs. *)
Theorem parse_inputs_labels e raw A pairs :
  (parse_inputs e raw).2 = Some (A, pairs) →
  NoDup A ∧ pairs = omap parse_pair raw
  ∧ (strip e = EmptyString →
     ∀ a, a ∈ A ↔ ∃ x y, (x, y) ∈ pairs ∧ (a = x ∨ a = y)).
Proof.
  intros (Hpairs & _ & HA & Hblank)%parse_inputs_Some.
  split_and!; [done..|]. intros He a.
  rewrite Hblank by (unfold entry_labels; by rewrite decide_True).
  unfold dedup_preserve_order. rewrite elem_of_dedup_loop, elem_of_labels_of.
  pose proof (not_elem_of_empty (C := gset string) a). tauto.
Qed.

Lemma parse_inputs_labels_witness :
  (parse_inputs " " ["b a"; "a,c"]%string).2
  = Some (["b"; "a"; "c"], [("b", "a"); ("a", "c")])%string
  ∧ NoDup ["b"; "a"; "c"]%string.
Proof.
  split; [reflexivity|].
  destruct (parse_inputs_labels " " ["b a"; "a,c"]%string
              ["b"; "a"; "c"]%string [("b", "a"); ("a", "c")]%string)
    as [Hnd _]; [reflexivity|exact Hnd].
Defined.

(** X23. What [on_compute] displays: the first matrix has a 1 at
    [i], [j] exactly when the pair of the labels [A[i]], [A[j]] was
    entered, the second one exactly when the pair [A[j]], [A[i]] was
    entered; both have [len(A)] rows of [len(A)] items, so every item
    that [MatrixTable] reads exists. *)
Theorem on_compute_display e raw A pairs :
  (parse_inputs e raw).2 = Some (A, pairs) →
  ∃ d, on_compute e raw = Some d
    ∧ labels d = A
    ∧ square (length A) (M_p d) ∧ square (length A) (M_p_inv d)
    ∧ ∀ i j x y, A !! i = Some x → A !! j = Some y →
        (entry (M_p d) i j = Some 1%Z ↔ (x, y) ∈ pairs)
        ∧ (entry (M_p_inv d) i j = Some 1%Z ↔ (y, x) ∈ pairs).
Proof.
  intros Hres. rewrite (on_compute_eq e raw A pairs Hres).
  apply parse_inputs_Some in Hres as (_ & _ & HA & _).
  destruct (build_matrix_represents A pairs) as (M & HM & Hsq & _).
  rewrite HM. simpl. eexists. split; [done|]. simpl.
  destruct (transpose_spec _ M Hsq) as [HsqT HentT].
  split_and!; [done..|]. intros i j x y Hx Hy. rewrite HentT.
  split; by eapply build_matrix_entry.
Qed.

Lemma on_compute_display_witness :
  (parse_inputs "a b" ["a b"; "b z"]%string).2
  = Some (["a"; "b"], [("a", "b"); ("b", "z")])%string
  ∧ ∃ d, on_compute "a b" ["a b"; "b z"]%string = Some d
         ∧ labels d = ["a"; "b"]%string.
Proof.
  split; [reflexivity|].
  destruct (on_compute_display "a b" ["a b"; "b z"]%string
              ["a"; "b"]%string [("a", "b"); ("b", "z")]%string)
    as (d & Hd & Hl & _); [reflexivity|].
  exists d. split; [exact Hd|exact Hl].
Defined.

(** X24. With the field for [A] left blank nothing is dropped: no pair
    is reported as outside of [A], every accepted pair has a 1 in the
    first matrix at the positions of its two labels, and [Pairs used] is
    the number of distinct accepted pairs. *)
Theorem on_compute_blank e raw d :
  strip e = EmptyString → on_compute e raw = Some d →
  outside d = []
  ∧ (∀ x y, (x, y) ∈ omap parse_pair raw →
       ∃ i j, labels d !! i = Some x ∧ labels d !! j = Some y
              ∧ entry (M_p d) i j = Some 1%Z)
  ∧ pairs_used d
    = Z.of_nat (size (list_to_set (C := gset (string * string))
                        (omap parse_pair raw))).
Proof.
  intros He Hd.
  destruct ((parse_inputs e raw).2) as [[A pairs]|] eqn:Hres;
    [|unfold on_compute in Hd; by rewrite Hres in Hd].
  rewrite (on_compute_eq e raw A pairs Hres) in Hd.
  apply parse_inputs_Some in Hres as (Hpairs & _ & HA & Hblank).
  destruct (build_matrix A pairs) as [M|] eqn:HM; [|done].
  simpl in Hd. rewrite decide_True in Hd by done. injection Hd as <-. simpl.
  assert (∀ a, a ∈ labels_of pairs → a ∈ A) as Hin.
  { intros a Ha. rewrite Hblank by (unfold entry_labels; by rewrite decide_True).
    unfold dedup_preserve_order. rewrite elem_of_dedup_loop.
    split; [done|]. apply not_elem_of_empty. }
  assert (∀ x y, (x, y) ∈ pairs → x ∈ A ∧ y ∈ A) as Hin'.
  { intros x y Hxy. split; apply Hin, elem_of_labels_of; eauto. }
  split_and!; [done| |].
  - intros x y Hxy. rewrite <- Hpairs in Hxy.
    destruct (Hin' x y Hxy) as [[i Hi]%list_elem_of_lookup_1 [j Hj]%list_elem_of_lookup_1].
    exists i, j. split_and!; [done..|]. by eapply build_matrix_entry.
  - rewrite (total_build_matrix A pairs M HM), <- Hpairs. do 3 f_equal.
    clear -Hin'. induction pairs as [|[x y] pairs IH]; [done|].
    rewrite filter_cons_True by (simpl; apply Hin'; left).
    f_equal. apply IH. intros x' y' ?. apply Hin'. by right.
Qed.

Lemma on_compute_blank_witness :
  strip "  " = EmptyString
  ∧ on_compute "  " ["a b"; "b a"; "a b"]%string
    = Some (Display ["a"; "b"]%string [] [[0; 1]; [1; 0]]%Z [[0; 1]; [1; 0]]%Z 2)
  ∧ pairs_used (Display ["a"; "b"]%string [] [[0; 1]; [1; 0]]%Z [[0; 1]; [1; 0]]%Z 2)
    = Z.of_nat (size (list_to_set (C := gset (string * string))
                        (omap parse_pair ["a b"; "b a"; "a b"]%string))).
Proof.
  split; [reflexivity|]. split; [reflexivity|].
  destruct (on_compute_blank "  " ["a b"; "b a"; "a b"]%string
              (Display ["a"; "b"]%string [] [[0; 1]; [1; 0]]%Z [[0; 1]; [1; 0]]%Z 2))
    as (_ & _ & Hused); [reflexivity|reflexivity|exact Hused].
Defined.
End compute_facts.

(** * The lines of the report *)

Section report_lines.
Implicit Types (p q : list Z) (s t u v : string).

(** Not the space character. *)
Local Abbreviation no_space := (λ c : ascii, negb (bool_decide (c = " "%char))).

Lemma pretty_N_go_no_space x s :
  all_chars no_space s = true → all_chars no_space (pretty_N_go x s) = true.
Proof.
  revert s. induction (N.lt_wf_0 x) as [x _ IH]; intros s Hs.
  assert (x = 0 ∨ 0 < x)%N as [->|Hx] by lia.
  - by rewrite pretty_N_go_0.
  - rewrite pretty_N_go_step by done. apply IH; [by apply N.div_lt|].
    simpl. rewrite Hs, andb_true_r. unfold pretty_N_char.
    by repeat case_match.
Qed.

Lemma pretty_N_go_nonempty x s :
  s ≠ EmptyString → pretty_N_go x s ≠ EmptyString.
Proof.
  revert s. induction (N.lt_wf_0 x) as [x _ IH]; intros s Hs.
  assert (x = 0 ∨ 0 < x)%N as [->|Hx] by lia.
  - by rewrite pretty_N_go_0.
  - rewrite pretty_N_go_step by done. apply IH; [by apply N.div_lt|done].
Qed.

Lemma pretty_Z_shape (z : Z) :
  all_chars no_space (pretty z) = true ∧ pretty z ≠ EmptyString.
Proof.
  assert (∀ q : positive,
    all_chars no_space (pretty q) = true ∧ pretty q ≠ EmptyString) as Hpos.
  { intros q. unfold pretty, pretty_positive, pretty, pretty_N.
    rewrite decide_False by done. split.
    - by apply pretty_N_go_no_space.
    - rewrite pretty_N_go_step by lia. by apply pretty_N_go_nonempty. }
  destruct z as [|q|q]; [done|apply Hpos|].
  destruct (Hpos q) as [Hq _]. split; [|done].
  change (pretty (Z.neg q)) with (String "-"%char (pretty q)).
  simpl. exact Hq.
Qed.

(** Unfolding of [+:+] on a string that starts with known characters. *)
Local Ltac app_step :=
  repeat match goal with
  | |- context [EmptyString +:+ ?x] => change (EmptyString +:+ x) with x
  | |- context [String ?c ?y +:+ ?x] =>
      change (String c y +:+ x) with (String c (y +:+ x))
  end.

Lemma app_cancel_word s t u v :
  all_chars no_space s = true → all_chars no_space t = true →
  word_ends (λ c, bool_decide (c = " "%char)) u = true →
  word_ends (λ c, bool_decide (c = " "%char)) v = true →
  s +:+ u = t +:+ v → s = t ∧ u = v.
Proof.
  revert t. induction s as [|c s IH]; intros [|d t] Hs Ht Hu Hv; app_step.
  - done.
  - intros ->. simpl in *. apply andb_true_iff in Ht as [Hd _].
    by rewrite Hu in Hd.
  - intros <-. simpl in *. apply andb_true_iff in Hs as [Hc _].
    by rewrite Hv in Hc.
  - intros [= -> Heq]. simpl in *.
    apply andb_true_iff in Hs as [_ Hs]. apply andb_true_iff in Ht as [_ Ht].
    destruct (IH t Hs Ht Hu Hv Heq) as [-> ->]. done.
Qed.

Lemma concat_plus_cons s (l : list string) :
  String.concat " + " (s :: l)
  = s +:+ match l with
          | [] => EmptyString
          | _ :: _ => " + " +:+ String.concat " + " l
          end.
Proof.
  destruct l as [|t l]; [|done]. simpl.
  induction s as [|c s IH]; [done|]. app_step. by rewrite <- IH.
Qed.

Lemma join_plus_inj p q : join_plus p = join_plus q → p = q.
Proof.
  unfold join_plus. revert q.
  induction p as [|a p IH]; intros [|b q]; [done| | |].
  - rewrite fmap_cons, concat_plus_cons.
    destruct (pretty_Z_shape b) as [_ Hb].
    destruct (pretty b); [done|]. app_step. discriminate.
  - rewrite fmap_cons, concat_plus_cons.
    destruct (pretty_Z_shape a) as [_ Ha].
    destruct (pretty a); [done|]. app_step. discriminate.
  - rewrite !fmap_cons, !concat_plus_cons.
    destruct (pretty_Z_shape a) as [Ha _], (pretty_Z_shape b) as [Hb _].
    intros Heq.
    apply app_cancel_word in Heq as [Hab%(inj pretty) Htail];
      [|done|done|by destruct (pretty <$> p)|by destruct (pretty <$> q)].
    subst b. f_equal. apply IH.
    destruct p as [|a1 p], q as [|b1 q]; try done.
    rewrite !fmap_cons in *. by injection Htail.
Qed.

(** X25. [print_partitions] shows different partitions as different
    lines: the text [" + ".join(map(str, p))] determines the tuple [p],
    so the lines printed for [partitions(n)] are pairwise distinct. *)
Theorem partition_lines_distinct :
  (∀ p q, join_plus p = join_plus q → p = q)
  ∧ ∀ n, NoDup (join_plus <$> partitions n).
Proof.
  split; [apply join_plus_inj|].
  intros n. apply NoDup_fmap_2; [intros p q; apply join_plus_inj|].
  rewrite partitions_parts.
  eapply sorted_irrefl_NoDup; [apply lex_gt_irrefl|apply parts_sorted].
Qed.

Lemma partition_lines_distinct_witness :
  join_plus [2; 1; 1] = join_plus [2; 1; 1] ∧ [2; 1; 1] = [2; 1; 1] :> list Z.
Proof.
  split; [reflexivity|].
  destruct partition_lines_distinct as [Hinj _].
  apply (Hinj [2; 1; 1] [2; 1; 1]). reflexivity.
Defined.
End report_lines.
